(** * Minesweeper AI: knowledge base, inference loop and move selection

    A shallow embedding of [minesweeper.py] (classes [Minesweeper],
    [Sentence] and [MinesweeperAI]) together with the properties of the
    inference engine.

    Conventions of the embedding.
    - A Python [int] is a [Z]; a cell is a pair [(row, col)] of [Z].
    - A Python [set] of cells is a [gset cell]: equality of [gset]s is
      extensional, which is what Python's [==] on sets computes.
    - A [Sentence] object is a record; the sentences held by the AI live in
      the list [knowledge], and the in-place mutation of every sentence by
      [mark_mine]/[mark_safe] is a [map] over that list.  Positions in the
      list play the role of object identities: a loop that holds a sentence
      object and reads it again after a mutation reads the list again at the
      same position.
    - The [while True] loop of [add_knowledge] and the two [for] loops that
      walk over [self.knowledge] while appending to it need not terminate;
      they take a [fuel] and return [None] when it runs out.  "The call
      returns" is [∃ fuel, ... = Some _]; "the call never returns" is
      [∀ fuel, ... = None].
    - [random.shuffle] is an argument of [make_random_move], assumed to
      permute its list.

    Layout: the three classes, each in a module named after it (the
    methods of [Minesweeper] that the AI never calls are in
    [MinesweeperGame] and [MinesweeperPrint]); the vocabulary used to state
    properties; then the properties, the ones numbered C1 to C10 and X1 to
    X14 among them. *)

From Stdlib Require Import ZArith List Lia Permutation Ascii.
From stdpp Require Import base decidable option list sets fin_sets gmap strings.

Open Scope Z_scope.

Definition cell : Type := Z * Z.

(** [range(x - 1, x + 2)] *)
Definition range3 (x : Z) : list Z := [x - 1; x; x + 1].

(** [range(n)] for a Python int [n]: empty when [n <= 0]. *)
Definition range (n : Z) : list Z := map Z.of_nat (seq 0 (Z.to_nat n)).

(** ** class Minesweeper *)
Module Minesweeper.

(** The fields read by [nearby_mines]; the sets [mines] and [mines_found]
    belong to the game loop and are left out. *)
Record t : Type := mk {
  height : Z;
  width : Z;
  board : list (list bool)
}.

(** [self.board[i][j]] for [0 <= i, 0 <= j]; [__init__] builds a board of
    [height] rows of [width] entries, so that inside the bounds the
    lookup succeeds. *)
Definition board_at (g : t) (i j : Z) : bool :=
  match board g !! Z.to_nat i with
  | Some row => match row !! Z.to_nat j with
                | Some b => b
                | None => false
                end
  | None => false
  end.

(** The body of the two nested loops of [nearby_mines]. *)
Definition nearby_step (g : t) (c : cell) (count : Z) (ij : cell) : Z :=
  if decide (ij = c) then count
  else if decide (0 <= ij.1 < height g ∧ 0 <= ij.2 < width g) then
    if board_at g ij.1 ij.2 then count + 1 else count
  else count.

Definition nearby_mines (g : t) (c : cell) : Z :=
  foldl (fun count i =>
           foldl (fun count j => nearby_step g c count (i, j))
                 count (range3 c.2))
        0 (range3 c.1).

End Minesweeper.

(** ** class Sentence *)
Module Sentence.

Record t : Type := mk {
  cells : gset cell;
  count : Z
}.

(** [__eq__]: same cells and same count. *)
#[global] Instance eq_dec : EqDecision t.
Proof. solve_decision. Defined.

Definition known_mines (s : t) : gset cell :=
  if decide (Z.of_nat (size (cells s)) = count s) then cells s else ∅.

Definition known_safes (s : t) : gset cell :=
  if decide (count s = 0) then cells s else ∅.

Definition mark_mine (c : cell) (s : t) : t :=
  if decide (c ∈ cells s) then mk (cells s ∖ {[c]}) (count s - 1) else s.

Definition mark_safe (c : cell) (s : t) : t :=
  if decide (c ∈ cells s) then mk (cells s ∖ {[c]}) (count s) else s.

End Sentence.

(** ** class MinesweeperAI *)
Module MinesweeperAI.

Record t : Type := mk {
  height : Z;
  width : Z;
  moves_made : gset cell;
  mines : gset cell;
  safes : gset cell;
  knowledge : list Sentence.t
}.

(** [__init__] *)
Definition init (h w : Z) : t := mk h w ∅ ∅ ∅ [].

Definition set_knowledge (ai : t) (K : list Sentence.t) : t :=
  mk (height ai) (width ai) (moves_made ai) (mines ai) (safes ai) K.

Definition mark_mine (ai : t) (c : cell) : t :=
  mk (height ai) (width ai) (moves_made ai) ({[c]} ∪ mines ai) (safes ai)
     (map (Sentence.mark_mine c) (knowledge ai)).

Definition mark_safe (ai : t) (c : cell) : t :=
  mk (height ai) (width ai) (moves_made ai) (mines ai) ({[c]} ∪ safes ai)
     (map (Sentence.mark_safe c) (knowledge ai)).

(** *** Building the sentence of an observation *)

Definition in_bounds (ai : t) (rc : cell) : Prop :=
  0 <= rc.1 < height ai ∧ 0 <= rc.2 < width ai.

#[global] Instance in_bounds_dec ai rc : Decision (in_bounds ai rc).
Proof. unfold in_bounds. apply _. Defined.

(** The body of the two nested loops over the neighbourhood of [c]; the
    accumulator is the pair of the locals [cells_set] and [count]. *)
Definition neighbour_step (ai : t) (c : cell) (acc : gset cell * Z)
    (rc : cell) : gset cell * Z :=
  if decide (rc ≠ c ∧ in_bounds ai rc) then
    if decide ((rc ∉ moves_made ai) ∧ (rc ∉ safes ai) ∧ (rc ∉ mines ai)) then
      ({[rc]} ∪ acc.1, acc.2)
    else if decide (rc ∈ mines ai) then (acc.1, acc.2 - 1)
    else acc
  else acc.

Definition neighbour_loop (ai : t) (c : cell) (count : Z) : gset cell * Z :=
  foldl (fun acc row =>
           foldl (fun acc col => neighbour_step ai c acc (row, col))
                 acc (range3 c.2))
        (∅, count) (range3 c.1).

(** [add_knowledge] up to and including the append of the new sentence. *)
Definition new_sentence (ai : t) (c : cell) (count : Z) : Sentence.t :=
  let ai1 := mark_safe (mk (height ai) (width ai) ({[c]} ∪ moves_made ai)
                           (mines ai) (safes ai) (knowledge ai)) c in
  let r := neighbour_loop ai1 c count in
  Sentence.mk r.1 r.2.

Definition add_sentence (ai : t) (c : cell) (count : Z) : t :=
  let ai1 := mark_safe (mk (height ai) (width ai) ({[c]} ∪ moves_made ai)
                           (mines ai) (safes ai) (knowledge ai)) c in
  set_knowledge ai1 (knowledge ai1 ++ [new_sentence ai c count]).

(** *** The direct-conclusion pass *)

(** [for safe_cell in safe_cells.copy(): ...] on the state and the flag
    [loop_stop]. *)
Definition mark_safes_loop (st : t * bool) (cs : list cell) : t * bool :=
  foldl (fun st c => if decide (c ∈ safes st.1) then st
                     else (mark_safe st.1 c, true)) st cs.

Definition mark_mines_loop (st : t * bool) (cs : list cell) : t * bool :=
  foldl (fun st c => if decide (c ∈ mines st.1) then st
                     else (mark_mine st.1 c, true)) st cs.

(** One iteration of [for sentence in self.knowledge.copy()]: the
    sentence is the object at position [i]; it is read once for
    [known_safes] and again, after the marking, for [known_mines]. *)
Definition direct_step (st : t * bool) (i : nat) : t * bool :=
  match knowledge st.1 !! i with
  | None => st
  | Some sentence =>
    let safe_cells := Sentence.known_safes sentence in
    let st1 := if decide (safe_cells ≠ ∅)
               then mark_safes_loop st (elements safe_cells) else st in
    match knowledge st1.1 !! i with
    | None => st1
    | Some sentence' =>
      let mine_cells := Sentence.known_mines sentence' in
      if decide (mine_cells ≠ ∅)
      then mark_mines_loop st1 (elements mine_cells) else st1
    end
  end.

Definition direct_pass (ai : t) : t * bool :=
  foldl direct_step (ai, false) (seq 0 (length (knowledge ai))).

(** *** The subset-resolution pass

    Both [for] loops walk over [self.knowledge] itself, so a sentence
    appended during the walk is visited too: the loop ends when the index
    reaches the current length. *)
Fixpoint inner_loop (fuel : nat) (sentence1 : Sentence.t) (index1 index2 : nat)
    (K : list Sentence.t) (loop_stop : bool) : option (list Sentence.t * bool) :=
  match fuel with
  | O => None
  | S fuel =>
    match K !! index2 with
    | None => Some (K, loop_stop)
    | Some sentence2 =>
      if decide (index1 = index2) then
        inner_loop fuel sentence1 index1 (S index2) K loop_stop
      else if decide (Sentence.cells sentence1 ⊆ Sentence.cells sentence2) then
        let cells_based := Sentence.cells sentence2 ∖ Sentence.cells sentence1 in
        let count_based := Sentence.count sentence2 - Sentence.count sentence1 in
        if decide (size cells_based ≠ 0%nat) then
          let sentence_based := Sentence.mk cells_based count_based in
          if decide (sentence_based ∉ K) then
            inner_loop fuel sentence1 index1 (S index2) (K ++ [sentence_based]) true
          else inner_loop fuel sentence1 index1 (S index2) K loop_stop
        else inner_loop fuel sentence1 index1 (S index2) K loop_stop
      else inner_loop fuel sentence1 index1 (S index2) K loop_stop
    end
  end.

Fixpoint outer_loop (fuel : nat) (index1 : nat) (K : list Sentence.t)
    (loop_stop : bool) : option (list Sentence.t * bool) :=
  match fuel with
  | O => None
  | S fuel =>
    match K !! index1 with
    | None => Some (K, loop_stop)
    | Some sentence1 =>
      match inner_loop fuel sentence1 index1 0 K loop_stop with
      | None => None
      | Some (K', loop_stop') => outer_loop fuel (S index1) K' loop_stop'
      end
    end
  end.

(** *** The [while True] loop *)
Fixpoint infer (fuel : nat) (ai : t) : option t :=
  match fuel with
  | O => None
  | S fuel =>
    let st := direct_pass ai in
    match outer_loop fuel 0 (knowledge st.1) st.2 with
    | None => None
    | Some (K, loop_stop) =>
      if loop_stop then infer fuel (set_knowledge st.1 K)
      else Some (set_knowledge st.1 K)
    end
  end.

Definition add_knowledge (fuel : nat) (ai : t) (c : cell) (count : Z) : option t :=
  infer fuel (add_sentence ai c count).

(** *** Move selection *)

(** [for cell in self.safes: if cell not in self.moves_made: return cell] *)
Definition make_safe_move (ai : t) : option cell :=
  head (filter (fun c => c ∉ moves_made ai) (elements (safes ai))).

(** The list built by the two nested loops of [make_random_move]. *)
Definition possible_random_cells (ai : t) : list cell :=
  foldl (fun acc row =>
           foldl (fun acc col =>
                    if decide (((row, col) ∉ moves_made ai) ∧ ((row, col) ∉ mines ai))
                    then acc ++ [(row, col)] else acc)
                 acc (range (height ai)))
        [] (range (width ai)).

(** [random.shuffle] is a parameter: any function that permutes its
    argument. *)
Definition make_random_move (shuffle : list cell → list cell) (ai : t)
    : option cell :=
  let l := possible_random_cells ai in
  if decide (length l = 0%nat) then None else head (shuffle l).

End MinesweeperAI.

(** ** class Minesweeper: the rest

    [__init__], [is_mine], [won] and [print].  The game object carries,
    besides the fields of [Minesweeper.t], the sets [mines] and
    [mines_found]. *)
Module MinesweeperGame.

(** What a method does: it returns, it raises ([IndexError] from a list
    index out of range, [ValueError] from [randrange] on an empty range),
    or it is still in its loop when the random draws supplied are used
    up. *)
Inductive outcome (A : Type) : Type :=
  | Returns (a : A)
  | Raises
  | Pending.
Arguments Returns {A} a.
Arguments Raises {A}.
Arguments Pending {A}.

(** The position [l[i]] refers to: a negative index counts from the end;
    [None] when Python raises [IndexError]. *)
Definition py_pos {A : Type} (l : list A) (i : Z) : option nat :=
  if decide (0 <= i < Z.of_nat (length l)) then Some (Z.to_nat i)
  else if decide (- Z.of_nat (length l) <= i < 0)
       then Some (Z.to_nat (Z.of_nat (length l) + i))
       else None.

(** [l[i]] *)
Definition py_index {A : Type} (l : list A) (i : Z) : option A :=
  match py_pos l i with
  | Some n => l !! n
  | None => None
  end.

(** [l[i] = x] *)
Definition py_assign {A : Type} (l : list A) (i : Z) (x : A) : option (list A) :=
  match py_pos l i with
  | Some n => Some (<[n := x]> l)
  | None => None
  end.

Record t : Type := mk {
  base : Minesweeper.t;
  mines : gset cell;
  mines_found : gset cell
}.

(** [self.board[i][j]] *)
Definition board_index (board : list (list bool)) (i j : Z) : option bool :=
  match py_index board i with
  | Some row => py_index row j
  | None => None
  end.

(** [self.board[i][j] = True]: the row object is fetched, then changed in
    place; the rows are distinct objects, each built by its own iteration
    of the loop of [__init__]. *)
Definition board_assign (board : list (list bool)) (i j : Z)
    : option (list (list bool)) :=
  match py_index board i with
  | Some row =>
    match py_assign row j true with
    | Some row' => py_assign board i row'
    | None => None
    end
  | None => None
  end.

Definition is_mine (g : Minesweeper.t) (c : cell) : option bool :=
  board_index (Minesweeper.board g) c.1 c.2.

Definition won (g : t) : bool := bool_decide (mines_found g = mines g).

(** The field with no mines built by the first loops of [__init__]. *)
Definition new_row (width : Z) : list bool :=
  foldl (λ row _, row ++ [false]) [] (range width).

Definition new_board (height width : Z) : list (list bool) :=
  foldl (λ board _, board ++ [new_row width]) [] (range height).

(** The loop [while len(self.mines) != mines].  The values returned by
    [random.randrange] are taken from [draws], a pair [(i, j)] for each
    iteration; [randrange(n)] raises when [n <= 0]. *)
Fixpoint place_mines (height width target : Z) (draws : list cell)
    (board : list (list bool)) (mines : gset cell)
    : outcome (list (list bool) * gset cell) :=
  if decide (Z.of_nat (size mines) = target) then Returns (board, mines)
  else if decide (height <= 0 ∨ width <= 0) then Raises
  else
    match draws with
    | [] => Pending
    | (i, j) :: draws =>
      match board_index board i j with
      | None => Raises
      | Some true => place_mines height width target draws board mines
      | Some false =>
        match board_assign board i j with
        | Some board' =>
          place_mines height width target draws board' ({[ (i, j) ]} ∪ mines)
        | None => Raises
        end
      end
    end.

(** [__init__] *)
Definition init (height width target : Z) (draws : list cell) : outcome t :=
  match place_mines height width target draws (new_board height width) ∅ with
  | Returns (board, mines) =>
    Returns (mk (Minesweeper.mk height width board) mines ∅)
  | Raises => Raises
  | Pending => Pending
  end.

End MinesweeperGame.

(** ** [Minesweeper.print] *)
Module MinesweeperPrint.

(** [s * n] on a string: the empty string when [n <= 0]. *)
Definition str_times (s : string) (n : Z) : string :=
  Nat.iter (Z.to_nat n) (String.append s) "".

(** The text written so far: the finished lines, and the line that
    [print(..., end="")] is still filling. *)
Record stdout : Type := mk_stdout {
  lines : list string;
  partial : string
}.

(** [print(s)] *)
Definition print_line (o : stdout) (s : string) : stdout :=
  mk_stdout (lines o ++ [partial o +:+ s]) "".

(** [print(s, end="")] *)
Definition print_part (o : stdout) (s : string) : stdout :=
  mk_stdout (lines o) (partial o +:+ s).

(** The loop over [j]; [None] when [self.board[i][j]] raises. *)
Definition print_cells (g : Minesweeper.t) (i : Z) (o : stdout) : option stdout :=
  foldl (λ o j,
           match o with
           | None => None
           | Some o =>
             match MinesweeperGame.board_index (Minesweeper.board g) i j with
             | Some true => Some (print_part o "|X")
             | Some false => Some (print_part o "| ")
             | None => None
             end
           end)
        (Some o) (range (Minesweeper.width g)).

Definition print (g : Minesweeper.t) : option stdout :=
  let rule := str_times "--" (Minesweeper.width g) +:+ "-" in
  match
    foldl (λ o i,
             match o with
             | None => None
             | Some o =>
               match print_cells g i (print_line o rule) with
               | Some o => Some (print_line o "|")
               | None => None
               end
             end)
          (Some (mk_stdout [] "")) (range (Minesweeper.height g))
  with
  | Some o => Some (print_line o rule)
  | None => None
  end.

End MinesweeperPrint.

Import MinesweeperAI.

(** * Vocabulary of the specification

    Sets of cells, relations between states and worked examples used to
    state the properties below. *)

(** The grid of Scenario E with the roles of the two bounds told apart:
    one row, two columns, the cell (0,0) probed. *)
Definition one_by_two_probed : MinesweeperAI.t :=
  MinesweeperAI.mk 1 2 {[ (0, 0) ]} ∅ ∅ [].

(** The nine cells visited by the two nested loops over
    [range(c[0]-1, c[0]+2)] and [range(c[1]-1, c[1]+2)], in loop order. *)
Definition window (c : cell) : list cell :=
  [ (c.1 - 1, c.2 - 1); (c.1 - 1, c.2); (c.1 - 1, c.2 + 1);
    (c.1, c.2 - 1);     (c.1, c.2);     (c.1, c.2 + 1);
    (c.1 + 1, c.2 - 1); (c.1 + 1, c.2); (c.1 + 1, c.2 + 1) ].

(** [n] is one of the eight cells around [c]. *)
Definition adjacent (c n : cell) : Prop :=
  n ≠ c ∧ c.1 - 1 <= n.1 <= c.1 + 1 ∧ c.2 - 1 <= n.2 <= c.2 + 1.

#[global] Instance adjacent_dec c n : Decision (adjacent c n).
Proof. unfold adjacent. apply _. Defined.

(** A neighbour that enters the new sentence, and one that lowers its count. *)
Definition unknown_neighbour (ai : MinesweeperAI.t) (c n : cell) : Prop :=
  (n ≠ c ∧ in_bounds ai n) ∧
  ((n ∉ moves_made ai) ∧ (n ∉ safes ai) ∧ (n ∉ mines ai)).

Definition mined_neighbour (ai : MinesweeperAI.t) (c n : cell) : Prop :=
  (n ≠ c ∧ in_bounds ai n) ∧ n ∈ mines ai.

#[global] Instance unknown_neighbour_dec ai c n : Decision (unknown_neighbour ai c n).
Proof. unfold unknown_neighbour. apply _. Defined.

#[global] Instance mined_neighbour_dec ai c n : Decision (mined_neighbour ai c n).
Proof. unfold mined_neighbour. apply _. Defined.

(** The state in which the neighbours are examined: the probed cell has
    been added to [moves_made] and marked safe. *)
Definition probed (ai : MinesweeperAI.t) (c : cell) : MinesweeperAI.t :=
  mark_safe (MinesweeperAI.mk (height ai) (width ai) ({[c]} ∪ moves_made ai)
                              (mines ai) (safes ai) (knowledge ai)) c.

(** The sentence inferred from [s1 ⊆ s2]. *)
Definition sentence_based (s1 s2 : Sentence.t) : Sentence.t :=
  Sentence.mk (Sentence.cells s2 ∖ Sentence.cells s1)
              (Sentence.count s2 - Sentence.count s1).

(** One iteration of the inner loop appends [sentence_based s1 s2] when
    [resolves K s1 s2] holds. *)
Definition resolves (K : list Sentence.t) (s1 s2 : Sentence.t) : Prop :=
  Sentence.cells s1 ⊆ Sentence.cells s2 ∧
  size (Sentence.cells s2 ∖ Sentence.cells s1) ≠ 0%nat ∧
  sentence_based s1 s2 ∉ K.

#[global] Instance resolves_dec K s1 s2 : Decision (resolves K s1 s2).
Proof. unfold resolves. apply _. Defined.

(** [K'] is [K] followed by sentences that are new: none is in [K] and
    no two of them are equal; the flag is raised exactly when something
    was appended. *)
Definition appends (K : list Sentence.t) (stop : bool)
    (K' : list Sentence.t) (stop' : bool) : Prop :=
  ∃ added, K' = K ++ added ∧ NoDup added ∧ (∀ s, s ∈ added → s ∉ K) ∧
           stop' = (if added is [] then stop else true).

(** A certainty fanned out to a sentence. *)
Inductive mark : Type :=
  | MarkSafe (c : cell)
  | MarkMine (c : cell).

Definition apply_mark (s : Sentence.t) (m : mark) : Sentence.t :=
  match m with
  | MarkSafe c => Sentence.mark_safe c s
  | MarkMine c => Sentence.mark_mine c s
  end.

Definition apply_marks (ms : list mark) (s : Sentence.t) : Sentence.t :=
  foldl apply_mark s ms.

(** The pass rewrites every sentence in place and keeps the other fields
    or lets them grow. *)
Definition narrowed (ai ai' : MinesweeperAI.t) : Prop :=
  height ai' = height ai ∧ width ai' = width ai ∧
  moves_made ai' = moves_made ai ∧
  safes ai ⊆ safes ai' ∧ mines ai ⊆ mines ai' ∧
  ∃ ms, knowledge ai' = map (apply_marks ms) (knowledge ai).

(** A round started in [ai] marks nothing and appends nothing. *)
Definition at_fixpoint (fuel : nat) (ai : MinesweeperAI.t) : Prop :=
  direct_pass ai = (ai, false) ∧
  outer_loop fuel 0 (knowledge ai) false = Some (knowledge ai, false).

(** A board of two rows and three columns with mines at (1,0) and (1,2). *)
Definition board23 : Minesweeper.t :=
  Minesweeper.mk 2 3 [[false; false; false]; [true; false; true]].

(** The AI after [add_knowledge((0,0), 1)] on that board. *)
Definition ai23_first : MinesweeperAI.t :=
  MinesweeperAI.mk 2 3 {[ (0, 0) ]} ∅ {[ (0, 0) ]}
    [Sentence.mk {[ (0, 1); (1, 0); (1, 1) ]} 1].

(** The AI after [add_knowledge((0,1), 2)] in that state. *)
Definition ai23_second : MinesweeperAI.t :=
  MinesweeperAI.mk 2 3 {[ (0, 0); (0, 1) ]} ∅ {[ (0, 0); (0, 1) ]}
    [Sentence.mk {[ (1, 0); (1, 1) ]} 1;
     Sentence.mk {[ (0, 2); (1, 0); (1, 1); (1, 2) ]} 2;
     Sentence.mk {[ (0, 2); (1, 2) ]} 1].

(** Scenario A: one row, two columns, [add_knowledge((0,0), 0)]. *)
Definition ai12_first : MinesweeperAI.t :=
  MinesweeperAI.mk 1 2 {[ (0, 0) ]} ∅ {[ (0, 0); (0, 1) ]} [Sentence.mk ∅ 0].

(** ... followed by [add_knowledge((0,1), 0)]. *)
Definition ai12_second : MinesweeperAI.t :=
  MinesweeperAI.mk 1 2 {[ (0, 0); (0, 1) ]} ∅ {[ (0, 0); (0, 1) ]}
    [Sentence.mk ∅ 0; Sentence.mk ∅ 0].

(** [c] is a cell of the grid of [g] that holds a mine. *)
Definition mine (g : Minesweeper.t) (c : cell) : Prop :=
  (0 <= c.1 < Minesweeper.height g ∧ 0 <= c.2 < Minesweeper.width g) ∧
  Minesweeper.board_at g c.1 c.2 = true.

#[global] Instance mine_dec g c : Decision (mine g c).
Proof. unfold mine. apply _. Defined.

(** The number of mines among the cells of [X]. *)
Definition mines_in (g : Minesweeper.t) (X : gset cell) : Z :=
  Z.of_nat (size (filter (mine g) X)).

Definition true_sentence (g : Minesweeper.t) (s : Sentence.t) : Prop :=
  Sentence.count s = mines_in g (Sentence.cells s).

(** The state of the AI agrees with the board [g]: same bounds, no mine
    among the cells held safe, only mines among the cells held mines,
    every probed cell held safe, every sentence true. *)
Definition consistent (g : Minesweeper.t) (ai : MinesweeperAI.t) : Prop :=
  height ai = Minesweeper.height g ∧ width ai = Minesweeper.width g ∧
  (∀ c, c ∈ safes ai → ¬ mine g c) ∧
  (∀ c, c ∈ mines ai → mine g c) ∧
  moves_made ai ⊆ safes ai ∧
  Forall (true_sentence g) (knowledge ai).

(** The cells mentioned by the sentences of a list. *)
Definition universe (K : list Sentence.t) : gset cell :=
  ⋃ (Sentence.cells <$> K).

(** [consistent], with all sentences inside a fixed finite set [U]. *)
Definition sound (g : Minesweeper.t) (U : gset cell) (ai : MinesweeperAI.t) : Prop :=
  consistent g ai ∧ Forall (λ s, Sentence.cells s ⊆ U) (knowledge ai).

(** The cells of [U] not yet held safe, plus those not yet held mines:
    every mark of the direct-conclusion pass lowers this number. *)
Definition unknown (U : gset cell) (ai : MinesweeperAI.t) : nat :=
  (size (U ∖ safes ai) + size (U ∖ mines ai))%nat.

(** All subsets of the cells of a list. *)
Fixpoint powerlist (l : list cell) : list (gset cell) :=
  match l with
  | [] => [∅]
  | x :: l => powerlist l ++ map (λ X, {[x]} ∪ X) (powerlist l)
  end.

Definition candidates (g : Minesweeper.t) (U : gset cell) : list Sentence.t :=
  map (λ X, Sentence.mk X (mines_in g X)) (powerlist (elements U)).

(** The candidates that are not in [K] yet. *)
Definition missing (g : Minesweeper.t) (U : gset cell) (K : list Sentence.t) : nat :=
  length (filter (λ s, s ∉ K) (candidates g U)).

(** What sentences have to satisfy for the counting argument. *)
Definition fits (g : Minesweeper.t) (U : gset cell) (s : Sentence.t) : Prop :=
  true_sentence g s ∧ Sentence.cells s ⊆ U.

(** One row, four columns, after [add_knowledge((0,0), 2)]: a count that no
    board gives. *)
Definition ai14_first : MinesweeperAI.t :=
  MinesweeperAI.mk 1 4 {[ (0, 0) ]} ∅ {[ (0, 0) ]} [Sentence.mk {[ (0, 1) ]} 2].

(** The knowledge while the inner loop of [add_knowledge((0,1), 5)] runs
    with [sentence1 = {} = 2]: it has met [n] sentences [{(0,2)} = 5],
    [{(0,2)} = 3], [{(0,2)} = 1], [{(0,2)} = -1], ... and appends one more
    for each. *)
Definition chain (n : nat) : list Sentence.t :=
  Sentence.mk ∅ 2 ::
  map (λ j : nat, Sentence.mk {[ (0, 2) ]} (5 - 2 * Z.of_nat j)) (seq 0 n).

(** The driver's calls [add_knowledge(c, k)], one after the other. *)
Fixpoint observe_all (fuel : nat) (ai : MinesweeperAI.t)
    (obs : list (cell * Z)) : option MinesweeperAI.t :=
  match obs with
  | [] => Some ai
  | (c, k) :: obs =>
    match add_knowledge fuel ai c k with
    | Some ai' => observe_all fuel ai' obs
    | None => None
    end
  end.

(** What the board [g] answers when the cell [o.1], which holds no mine,
    is probed. *)
Definition answer_of (g : Minesweeper.t) (o : cell * Z) : Prop :=
  ¬ mine g o.1 ∧ o.2 = Minesweeper.nearby_mines g o.1.

(** A board of one row and two columns with its mine at (0,1). *)
Definition board12 : Minesweeper.t := Minesweeper.mk 1 2 [[false; true]].

(** The AI after [add_knowledge((0,0), 1)] on that board, and after a
    further [add_knowledge((0,1), 0)]. *)
Definition ai12_mine_found : MinesweeperAI.t :=
  MinesweeperAI.mk 1 2 {[ (0, 0) ]} {[ (0, 1) ]} {[ (0, 0) ]} [Sentence.mk ∅ 0].

Definition ai12_mine_probed : MinesweeperAI.t :=
  MinesweeperAI.mk 1 2 {[ (0, 0); (0, 1) ]} {[ (0, 1) ]} {[ (0, 0); (0, 1) ]}
    [Sentence.mk ∅ 0; Sentence.mk ∅ 0].

(** No sentence mentions a cell that is already held safe or held a mine. *)
Definition clean (ai : MinesweeperAI.t) : Prop :=
  ∀ s, s ∈ knowledge ai → Sentence.cells s ## safes ai ∪ mines ai.

(** No sentence of [ai] allows a direct conclusion that has not been
    drawn. *)
Definition exhausted (ai : MinesweeperAI.t) : Prop :=
  ∀ s, s ∈ knowledge ai →
    (Sentence.count s = 0 → Sentence.cells s ⊆ safes ai) ∧
    (Z.of_nat (size (Sentence.cells s)) = Sentence.count s →
       Sentence.cells s ⊆ mines ai).

(** The eight cells around [c], as a set. *)
Definition neighbours (c : cell) : gset cell :=
  list_to_set (filter (λ n, n ≠ c) (window c)).

(** The board has [height] rows of [width] entries. *)
Definition rectangular (g : Minesweeper.t) : Prop :=
  length (Minesweeper.board g) = Z.to_nat (Minesweeper.height g) ∧
  Forall (λ row : list bool, length row = Z.to_nat (Minesweeper.width g))
         (Minesweeper.board g).

(** The draws are values [randrange(height)] and [randrange(width)] can
    return. *)
Definition in_range (height width : Z) (ij : cell) : Prop :=
  0 <= ij.1 < height ∧ 0 <= ij.2 < width.

(** The field [board] and the set [mines] describe the same mines on a
    grid of [height] rows and [width] columns. *)
Definition agrees (height width : Z) (board : list (list bool))
    (mines : gset cell) : Prop :=
  rectangular (Minesweeper.mk height width board) ∧
  ∀ c, mine (Minesweeper.mk height width board) c ↔ c ∈ mines.

(** The row of the board shown by a line ["|X| |X|"]. *)
Fixpoint read_row (s : string) : list bool :=
  match s with
  | String "|"%char (String c s) => Ascii.eqb c "X"%char :: read_row s
  | _ => []
  end.

(** The board shown by the printed lines: every second line is a row. *)
Fixpoint read_rows (l : list string) : list (list bool) :=
  match l with
  | _ :: row :: l => read_row row :: read_rows l
  | _ => []
  end.

(** The line that shows a row. *)
Definition show_row (row : list bool) : string :=
  foldr (λ (b : bool) s, (if b then "|X" else "| ") +:+ s) "|" row.

(** The sentence at position [i] of the knowledge, together with [safes]
    and [mines], accounts for every cell of [N]. *)
Definition covered (N : gset cell) (i : nat) (ai : MinesweeperAI.t) : Prop :=
  ∃ s, knowledge ai !! i = Some s ∧
       Sentence.cells s ⊆ N ∧
       N ⊆ Sentence.cells s ∪ safes ai ∪ mines ai.

(** A board of one row and two columns without mines. *)
Definition board12_empty : Minesweeper.t := Minesweeper.mk 1 2 [[false; false]].

(** * Properties *)

(** * Sentences: direct conclusions *)

(** C7.  For every sentence [s]: when [count s = 0], [known_safes] returns
    exactly [cells s]; when [count s] equals the number of cells,
    [known_mines] returns exactly [cells s]; in every other case the
    operation returns the empty set.  Both operations only read the fields
    of [s]: they are functions of the sentence and have no state to
    change. *)
Theorem known_sets_by_count (s : Sentence.t) :
  (Sentence.count s = 0 → Sentence.known_safes s = Sentence.cells s) ∧
  (Sentence.count s = Z.of_nat (size (Sentence.cells s)) →
     Sentence.known_mines s = Sentence.cells s) ∧
  (Sentence.count s ≠ 0 → Sentence.known_safes s = ∅) ∧
  (Sentence.count s ≠ Z.of_nat (size (Sentence.cells s)) →
     Sentence.known_mines s = ∅).
Proof.
  unfold Sentence.known_safes, Sentence.known_mines.
  repeat split; intros Hc; case_decide; congruence.
Qed.

(** * Move selection *)

(** C8.  [make_safe_move] returns a cell of [safes ∖ moves_made] when there
    is one, and [None] exactly when that set is empty. *)
Theorem make_safe_move_spec (ai : MinesweeperAI.t) :
  match make_safe_move ai with
  | Some c => c ∈ safes ai ∖ moves_made ai
  | None => safes ai ∖ moves_made ai = ∅
  end.
Proof.
  unfold make_safe_move.
  destruct (filter _ (elements (safes ai))) as [|c l] eqn:Hf; simpl.
  - apply set_eq. intros c. split; [|set_solver].
    intros [Hs Hm]%elem_of_difference.
    assert (Hin : c ∈ filter (λ c, c ∉ moves_made ai) (elements (safes ai))).
    { apply list_elem_of_filter. split; [done|]. by apply elem_of_elements. }
    rewrite Hf in Hin. by apply elem_of_nil in Hin.
  - assert (Hin : c ∈ filter (λ c, c ∉ moves_made ai) (elements (safes ai))).
    { rewrite Hf. apply list_elem_of_here. }
    apply list_elem_of_filter in Hin as [Hm Hs].
    apply elem_of_elements in Hs. set_solver.
Qed.

Lemma elem_of_range (n x : Z) : x ∈ range n ↔ 0 <= x < n.
Proof.
  unfold range. rewrite list_elem_of_In, in_map_iff. split.
  - intros (i & <- & Hi%in_seq). lia.
  - intros Hx. exists (Z.to_nat x). split; [lia|]. apply in_seq. lia.
Qed.




(** C1.  On a grid of height 1 and width 2 with [(0,0)] probed the only
    cell of [(allCells ∖ moved) ∖ mined] is [(0,1)], but the loops of
    [make_random_move] run the row over [range(width)] and the column over
    [range(height)]: the candidates are [[(1,0)]], and whatever the shuffle
    does the move returned is [(1,0)], a cell outside the grid. *)
Theorem make_random_move_swaps_bounds :
  possible_random_cells one_by_two_probed = [(1, 0)] ∧
  ¬ in_bounds one_by_two_probed (1, 0) ∧
  in_bounds one_by_two_probed (0, 1) ∧
  ((0, 1) ∉ moves_made one_by_two_probed) ∧
  ((0, 1) ∉ mines one_by_two_probed) ∧
  ∀ shuffle : list cell → list cell,
    (∀ l, Permutation (shuffle l) l) →
    make_random_move shuffle one_by_two_probed = Some (1, 0).
Proof.
  assert (Hc : possible_random_cells one_by_two_probed = [(1, 0)]).
  { by vm_compute. }
  split; [done|]. split; [unfold in_bounds; simpl; lia|].
  split; [unfold in_bounds; simpl; lia|].
  split; [simpl; set_solver|]. split; [simpl; set_solver|].
  intros shuffle Hperm. unfold make_random_move. rewrite Hc. simpl.
  specialize (Hperm [(1, 0)]).
  apply Permutation_sym, Permutation_length_1_inv in Hperm.
  by rewrite Hperm.
Qed.

(** * The sentence built from an observation *)

Lemma elem_of_window (c n : cell) :
  n ∈ window c ↔ c.1 - 1 <= n.1 <= c.1 + 1 ∧ c.2 - 1 <= n.2 <= c.2 + 1.
Proof.
  destruct c as [r k], n as [i j]. unfold window. simpl.
  rewrite !elem_of_cons, elem_of_nil. split.
  - intros H. decompose [or] H; simplify_eq; lia.
  - intros [Hi Hj].
    assert (Hi' : i = r - 1 ∨ i = r ∨ i = r + 1) by lia.
    assert (Hj' : j = k - 1 ∨ j = k ∨ j = k + 1) by lia.
    destruct Hi' as [->|[->| ->]], Hj' as [->|[->| ->]]; tauto.
Qed.

Lemma NoDup_window (c : cell) : NoDup (window c).
Proof.
  destruct c as [r k]. unfold window. simpl.
  repeat (apply NoDup_cons; split;
          [ rewrite ?elem_of_cons, elem_of_nil; intros H;
            decompose [or] H; simplify_eq; lia | ]).
  apply NoDup_nil_2.
Qed.

Lemma neighbour_loop_window (ai : MinesweeperAI.t) (c : cell) (k : Z) :
  neighbour_loop ai c k = foldl (neighbour_step ai c) (∅, k) (window c).
Proof. unfold neighbour_loop, window, range3. cbn [foldl]. reflexivity. Qed.

Lemma nearby_mines_window (g : Minesweeper.t) (c : cell) :
  Minesweeper.nearby_mines g c = foldl (Minesweeper.nearby_step g c) 0 (window c).
Proof.
  unfold Minesweeper.nearby_mines, window, range3. cbn [foldl]. reflexivity.
Qed.

Lemma neighbour_step_cases (ai : MinesweeperAI.t) (c n : cell) (acc : gset cell * Z) :
  neighbour_step ai c acc n =
  if decide (unknown_neighbour ai c n) then ({[n]} ∪ acc.1, acc.2)
  else if decide (mined_neighbour ai c n) then (acc.1, acc.2 - 1)
  else acc.
Proof.
  unfold neighbour_step, unknown_neighbour, mined_neighbour.
  repeat case_decide; try done; tauto.
Qed.

Lemma neighbour_step_fold (ai : MinesweeperAI.t) (c : cell) (l : list cell) :
  ∀ acc,
    foldl (neighbour_step ai c) acc l =
    (acc.1 ∪ list_to_set (filter (unknown_neighbour ai c) l),
     acc.2 - Z.of_nat (length (filter (mined_neighbour ai c) l))).
Proof.
  induction l as [|n l IH]; intros [S k]; cbn [foldl].
  - rewrite !filter_nil. cbn. f_equal; [set_solver | lia].
  - rewrite IH, neighbour_step_cases, !filter_cons.
    destruct (decide (unknown_neighbour ai c n)) as [Hu|Hu].
    + rewrite decide_False by (unfold unknown_neighbour, mined_neighbour in *; tauto).
      cbn. f_equal. set_solver.
    + destruct (decide (mined_neighbour ai c n)); cbn; f_equal; lia.
Qed.

(** C6.  The sentence built for [observe(c, k)]: a cell is in it exactly
    when it is one of the eight neighbours of [c], lies in the grid and is
    neither probed, nor known safe, nor a known mine; its count is [k]
    lowered by one for every in-grid neighbour that is a known mine (a
    neighbour that is only probed or known safe lowers nothing); [c] itself
    is not in it. *)
Theorem new_sentence_spec (ai : MinesweeperAI.t) (c : cell) (k : Z) :
  (∀ n, n ∈ Sentence.cells (new_sentence ai c k) ↔
        adjacent c n ∧ in_bounds ai n ∧
        (n ∉ moves_made ai) ∧ (n ∉ safes ai) ∧ (n ∉ mines ai)) ∧
  Sentence.count (new_sentence ai c k) =
    k - Z.of_nat (size (filter (λ n, adjacent c n ∧ in_bounds ai n) (mines ai))) ∧
  c ∉ Sentence.cells (new_sentence ai c k).
Proof.
  unfold new_sentence. fold (probed ai c).
  rewrite neighbour_loop_window, neighbour_step_fold. simpl.
  assert (Hcells : ∀ n,
    n ∈ (∅ ∪ list_to_set (filter (unknown_neighbour (probed ai c) c) (window c))
          : gset cell) ↔
    adjacent c n ∧ in_bounds ai n ∧
    (n ∉ moves_made ai) ∧ (n ∉ safes ai) ∧ (n ∉ mines ai)).
  { intros n. rewrite elem_of_union, elem_of_list_to_set, list_elem_of_filter,
      elem_of_window.
    unfold unknown_neighbour, adjacent, in_bounds, probed. simpl.
    rewrite !not_elem_of_union, !elem_of_singleton. set_solver. }
  split; [exact Hcells|]. split.
  - f_equal. f_equal.
    rewrite <- (size_list_to_set (C := gset cell)).
    + f_equal. apply set_eq. intros n.
      rewrite elem_of_filter, elem_of_list_to_set, list_elem_of_filter,
        elem_of_window.
      unfold mined_neighbour, adjacent, in_bounds, probed. simpl. tauto.
    + apply NoDup_filter, NoDup_window.
  - rewrite Hcells. unfold adjacent. tauto.
Qed.

(** * The subset-resolution pass: what it appends *)

Lemma inner_loop_unfold (fuel : nat) s1 i1 i2 K stop :
  inner_loop (S fuel) s1 i1 i2 K stop =
  match K !! i2 with
  | None => Some (K, stop)
  | Some s2 =>
    if decide (i1 ≠ i2 ∧ resolves K s1 s2)
    then inner_loop fuel s1 i1 (S i2) (K ++ [sentence_based s1 s2]) true
    else inner_loop fuel s1 i1 (S i2) K stop
  end.
Proof.
  cbn [inner_loop]. destruct (K !! i2) as [s2|]; [|done].
  unfold resolves, sentence_based.
  repeat case_decide; try done; tauto.
Qed.

Lemma outer_loop_unfold (fuel : nat) i1 K stop :
  outer_loop (S fuel) i1 K stop =
  match K !! i1 with
  | None => Some (K, stop)
  | Some s1 =>
    match inner_loop fuel s1 i1 0 K stop with
    | None => None
    | Some (K', stop') => outer_loop fuel (S i1) K' stop'
    end
  end.
Proof. reflexivity. Qed.

Lemma infer_unfold (fuel : nat) (ai : MinesweeperAI.t) :
  infer (S fuel) ai =
  match outer_loop fuel 0 (knowledge (direct_pass ai).1) (direct_pass ai).2 with
  | None => None
  | Some (K, stop) =>
    if stop then infer fuel (set_knowledge (direct_pass ai).1 K)
    else Some (set_knowledge (direct_pass ai).1 K)
  end.
Proof. reflexivity. Qed.

(** ** More fuel does not change a result *)

Lemma inner_loop_fuel_mono (f f' : nat) s1 i1 i2 K stop r :
  (f ≤ f')%nat →
  inner_loop f s1 i1 i2 K stop = Some r →
  inner_loop f' s1 i1 i2 K stop = Some r.
Proof.
  revert f' i2 K stop. induction f as [|f IH]; intros f' i2 K stop Hle; [done|].
  destruct f' as [|f']; [lia|].
  rewrite !inner_loop_unfold.
  destruct (K !! i2) as [s2|]; [|done].
  case_decide; apply IH; lia.
Qed.

Lemma outer_loop_fuel_mono (f f' : nat) i1 K stop r :
  (f ≤ f')%nat →
  outer_loop f i1 K stop = Some r →
  outer_loop f' i1 K stop = Some r.
Proof.
  revert f' i1 K stop. induction f as [|f IH]; intros f' i1 K stop Hle; [done|].
  destruct f' as [|f']; [lia|].
  rewrite !outer_loop_unfold.
  destruct (K !! i1) as [s1|]; [|done].
  destruct (inner_loop f s1 i1 0 K stop) as [[K' stop']|] eqn:Hin; [|done].
  rewrite (inner_loop_fuel_mono f f' _ _ _ _ _ _ ltac:(lia) Hin).
  apply IH. lia.
Qed.

Lemma infer_fuel_mono (f f' : nat) (ai ai' : MinesweeperAI.t) :
  (f ≤ f')%nat → infer f ai = Some ai' → infer f' ai = Some ai'.
Proof.
  revert f' ai. induction f as [|f IH]; intros f' ai Hle; [done|].
  destruct f' as [|f']; [lia|].
  rewrite !infer_unfold.
  destruct (outer_loop f 0 _ _) as [[K stop]|] eqn:Hout; [|done].
  rewrite (outer_loop_fuel_mono f f' _ _ _ _ ltac:(lia) Hout).
  destruct stop; [|done]. apply IH. lia.
Qed.

(** ** The list only grows, by sentences that were not in it *)

Lemma appends_refl K stop : appends K stop K stop.
Proof.
  exists []. rewrite app_nil_r. repeat split; [constructor | set_solver].
Qed.

Lemma appends_trans K1 b1 K2 b2 K3 b3 :
  appends K1 b1 K2 b2 → appends K2 b2 K3 b3 → appends K1 b1 K3 b3.
Proof.
  intros (a1 & -> & Hnd1 & Hnew1 & ->) (a2 & -> & Hnd2 & Hnew2 & ->).
  exists (a1 ++ a2). rewrite app_assoc. split; [done|]. split; [|split].
  - apply NoDup_app. split; [done|]. split; [|done].
    intros s Hs1 Hs2. apply (Hnew2 s Hs2). set_solver.
  - intros s [Hs|Hs]%elem_of_app; [by apply Hnew1|].
    intros HK. apply (Hnew2 s Hs). set_solver.
  - destruct a1, a2; done.
Qed.

Lemma appends_one K stop s : s ∉ K → appends K stop (K ++ [s]) true.
Proof.
  intros Hs. exists [s]. split; [done|]. split; [apply NoDup_singleton|].
  split; [|done]. by intros ? ->%list_elem_of_singleton.
Qed.

Lemma inner_loop_appends (f : nat) s1 i1 i2 K stop K' stop' :
  inner_loop f s1 i1 i2 K stop = Some (K', stop') → appends K stop K' stop'.
Proof.
  revert i2 K stop. induction f as [|f IH]; intros i2 K stop; [done|].
  rewrite inner_loop_unfold.
  destruct (K !! i2) as [s2|].
  - case_decide as Hr.
    + intros Hrec%IH. eapply appends_trans; [|exact Hrec].
      apply appends_one. apply Hr.
    + apply IH.
  - intros [= <- <-]. apply appends_refl.
Qed.

Lemma outer_loop_appends (f : nat) i1 K stop K' stop' :
  outer_loop f i1 K stop = Some (K', stop') → appends K stop K' stop'.
Proof.
  revert i1 K stop. induction f as [|f IH]; intros i1 K stop; [done|].
  rewrite outer_loop_unfold.
  destruct (K !! i1) as [s1|].
  - destruct (inner_loop f s1 i1 0 K stop) as [[K1 stop1]|] eqn:Hin; [|done].
    intros Hrec%IH. eapply appends_trans; [|exact Hrec].
    by eapply inner_loop_appends.
  - intros [= <- <-]. apply appends_refl.
Qed.

Lemma appends_quiet K stop K' :
  appends K stop K' false → K' = K ∧ stop = false.
Proof.
  intros (added & -> & _ & _ & Hflag). destruct added; [|done].
  by rewrite app_nil_r.
Qed.

Lemma appends_length K stop K' stop' :
  appends K stop K' stop' → (length K ≤ length K')%nat.
Proof. intros (added & -> & _). rewrite length_app. lia. Qed.

(** ** A pass that leaves the flag down has found nothing to resolve *)

Lemma inner_loop_quiet (f : nat) s1 i1 i2 K stop K' :
  inner_loop f s1 i1 i2 K stop = Some (K', false) →
  ∀ j s2, (i2 ≤ j)%nat → j ≠ i1 → K !! j = Some s2 → ¬ resolves K s1 s2.
Proof.
  revert i2 K stop. induction f as [|f IH]; intros i2 K stop; [done|].
  rewrite inner_loop_unfold.
  destruct (K !! i2) as [s|] eqn:Hi2.
  - case_decide as Hr.
    + intros Hrec. apply inner_loop_appends, appends_quiet in Hrec as [_ ?]. done.
    + intros Hrec j s2 Hj Hne Hs2.
      destruct (decide (j = i2)) as [->|Hne2].
      * rewrite Hi2 in Hs2. injection Hs2 as ->. intros Hres. apply Hr.
        split; [done|exact Hres].
      * eapply IH; [exact Hrec| |done|done]. lia.
  - intros _ j s2 Hj _ Hs2. apply lookup_ge_None in Hi2.
    apply lookup_lt_Some in Hs2. lia.
Qed.

Lemma outer_loop_quiet (f : nat) i1 K stop K' :
  outer_loop f i1 K stop = Some (K', false) →
  ∀ i j s1 s2, (i1 ≤ i)%nat → j ≠ i →
    K !! i = Some s1 → K !! j = Some s2 → ¬ resolves K s1 s2.
Proof.
  revert i1 K stop. induction f as [|f IH]; intros i1 K stop; [done|].
  rewrite outer_loop_unfold.
  destruct (K !! i1) as [s|] eqn:Hi1.
  - destruct (inner_loop f s i1 0 K stop) as [[K1 stop1]|] eqn:Hin; [|done].
    intros Hrec.
    pose proof (outer_loop_appends _ _ _ _ _ _ Hrec) as [-> ->]%appends_quiet.
    pose proof (inner_loop_appends _ _ _ _ _ _ _ _ Hin) as [-> ->]%appends_quiet.
    intros i j s1 s2 Hi Hne Hs1 Hs2.
    destruct (decide (i = i1)) as [->|Hne1].
    + rewrite Hi1 in Hs1. injection Hs1 as ->.
      eapply (inner_loop_quiet _ _ _ _ _ _ _ Hin j); [lia|done|done].
    + eapply IH; [exact Hrec| |exact Hne|done|done]. lia.
  - intros _ i j s1 s2 Hi _ Hs1 _. apply lookup_ge_None in Hi1.
    apply lookup_lt_Some in Hs1. lia.
Qed.

(** * The direct-conclusion pass: an invariant rule

    Every change made by the pass is [mark_safe ai c] for a cell [c] of a
    sentence of the current knowledge whose count is 0, with [c] not yet in
    [safes], or [mark_mine ai c] for a cell of a current sentence whose
    count is its number of cells, with [c] not yet in [mines]; each raises
    the flag.  A property kept by these two steps is kept by the pass. *)
Section direct_rule.
Variable Inv : MinesweeperAI.t → bool → Prop.

Hypothesis Inv_safe : ∀ ai b c s,
  Inv ai b → s ∈ knowledge ai → Sentence.count s = 0 →
  c ∈ Sentence.cells s → c ∉ safes ai → Inv (mark_safe ai c) true.

Hypothesis Inv_mine : ∀ ai b c s,
  Inv ai b → s ∈ knowledge ai →
  Z.of_nat (size (Sentence.cells s)) = Sentence.count s →
  c ∈ Sentence.cells s → c ∉ mines ai → Inv (mark_mine ai c) true.

Lemma mark_safes_loop_rule (i : nat) (cs : list cell) :
  ∀ st, NoDup cs → Inv st.1 st.2 →
    (∃ s, knowledge st.1 !! i = Some s ∧ Sentence.count s = 0 ∧
          ∀ c, c ∈ cs → c ∈ Sentence.cells s) →
    Inv (mark_safes_loop st cs).1 (mark_safes_loop st cs).2.
Proof.
  unfold mark_safes_loop.
  induction cs as [|c cs IH]; intros [ai b] Hnd HI (s & Hs & Hcount & Hcs);
    cbn [foldl]; [done|].
  apply NoDup_cons in Hnd as [Hc Hnd]. cbn [fst snd] in *.
  case_decide as Hsafe.
  - apply IH; [done|done|]. exists s. set_solver.
  - apply IH; [done| |]; cbn [fst snd].
    + eapply Inv_safe; [exact HI| |done| |done].
      * by eapply list_elem_of_lookup_2.
      * set_solver.
    + exists (Sentence.mark_safe c s). split; [|split].
      * unfold mark_safe. cbn. by rewrite list_lookup_fmap, Hs.
      * unfold Sentence.mark_safe. by case_decide.
      * intros c' Hc'. unfold Sentence.mark_safe.
        rewrite decide_True by set_solver. cbn. set_solver.
Qed.

Lemma mark_mines_loop_rule (i : nat) (cs : list cell) :
  ∀ st, NoDup cs → Inv st.1 st.2 →
    (∃ s, knowledge st.1 !! i = Some s ∧
          Z.of_nat (size (Sentence.cells s)) = Sentence.count s ∧
          ∀ c, c ∈ cs → c ∈ Sentence.cells s) →
    Inv (mark_mines_loop st cs).1 (mark_mines_loop st cs).2.
Proof.
  unfold mark_mines_loop.
  induction cs as [|c cs IH]; intros [ai b] Hnd HI (s & Hs & Hcount & Hcs);
    cbn [foldl]; [done|].
  apply NoDup_cons in Hnd as [Hc Hnd]. cbn [fst snd] in *.
  case_decide as Hmine.
  - apply IH; [done|done|]. exists s. set_solver.
  - assert (Hin : c ∈ Sentence.cells s) by set_solver.
    apply IH; [done| |]; cbn [fst snd].
    + eapply Inv_mine; [exact HI| |done|done|done].
      by eapply list_elem_of_lookup_2.
    + exists (Sentence.mark_mine c s). split; [|split].
      * unfold mark_mine. cbn. by rewrite list_lookup_fmap, Hs.
      * unfold Sentence.mark_mine. rewrite decide_True by done. cbn.
        rewrite size_difference by set_solver. rewrite size_singleton.
        assert (size (Sentence.cells s) ≠ 0%nat).
        { apply size_non_empty_iff. set_solver. }
        lia.
      * intros c' Hc'. unfold Sentence.mark_mine.
        rewrite decide_True by done. cbn. set_solver.
Qed.

Lemma direct_step_rule (i : nat) (st : MinesweeperAI.t * bool) :
  Inv st.1 st.2 → Inv (direct_step st i).1 (direct_step st i).2.
Proof.
  intros HI. unfold direct_step.
  destruct (knowledge st.1 !! i) as [s|] eqn:Hs; [|done].
  set (st1 := if decide (Sentence.known_safes s ≠ ∅)
              then mark_safes_loop st (elements (Sentence.known_safes s))
              else st).
  assert (HI1 : Inv st1.1 st1.2).
  { subst st1. case_decide as Hne; [|done].
    apply (mark_safes_loop_rule i); [apply NoDup_elements|done|].
    exists s. unfold Sentence.known_safes in *.
    case_decide; [|done]. split; [done|]. split; [done|].
    intros c. by rewrite elem_of_elements. }
  clearbody st1.
  destruct (knowledge st1.1 !! i) as [s'|] eqn:Hs'; [|done].
  case_decide as Hne; [|done].
  apply (mark_mines_loop_rule i); [apply NoDup_elements|done|].
  exists s'. unfold Sentence.known_mines in *.
  case_decide; [|done]. split; [done|]. split; [done|].
  intros c. by rewrite elem_of_elements.
Qed.

Lemma direct_pass_rule (ai : MinesweeperAI.t) :
  Inv ai false → Inv (direct_pass ai).1 (direct_pass ai).2.
Proof.
  unfold direct_pass. generalize (seq 0 (length (knowledge ai))).
  intros l. change (Inv (ai, false).1 (ai, false).2 →
    Inv (foldl direct_step (ai, false) l).1 (foldl direct_step (ai, false) l).2).
  generalize (ai, false). induction l as [|i l IH]; intros st HI; [done|].
  cbn [foldl]. by apply IH, direct_step_rule.
Qed.
End direct_rule.

(** ** Consequences: the flag, and how the sentences change *)

Lemma direct_pass_quiet (ai : MinesweeperAI.t) :
  (direct_pass ai).2 = false → direct_pass ai = (ai, false).
Proof.
  intros Hflag.
  assert (H : (direct_pass ai).2 = false → (direct_pass ai).1 = ai).
  { apply (direct_pass_rule (λ ai' b, b = false → ai' = ai)); done. }
  destruct (direct_pass ai) as [ai' b]. cbn in *. subst b. by rewrite H.
Qed.

Lemma apply_marks_cells (ms : list mark) (s : Sentence.t) :
  Sentence.cells (apply_marks ms s) ⊆ Sentence.cells s.
Proof.
  unfold apply_marks. revert s. induction ms as [|m ms IH]; intros s; [done|].
  cbn [foldl]. etrans; [apply IH|].
  destruct m; unfold apply_mark, Sentence.mark_safe, Sentence.mark_mine;
    case_decide; cbn; set_solver.
Qed.

Lemma apply_marks_app (ms1 ms2 : list mark) (s : Sentence.t) :
  apply_marks (ms1 ++ ms2) s = apply_marks ms2 (apply_marks ms1 s).
Proof. unfold apply_marks. apply foldl_app. Qed.

Lemma narrowed_refl ai : narrowed ai ai.
Proof.
  repeat split; try done. exists []. by rewrite map_id.
Qed.

Lemma narrowed_mark ai ai' m :
  narrowed ai ai' →
  narrowed ai (match m with
               | MarkSafe c => mark_safe ai' c
               | MarkMine c => mark_mine ai' c
               end).
Proof.
  intros (Hh & Hw & Hm & Hs & Hn & ms & HK).
  destruct m as [c|c]; (repeat split; cbn; [done|done|done|set_solver|set_solver|]);
    [exists (ms ++ [MarkSafe c]) | exists (ms ++ [MarkMine c])];
    rewrite HK, map_map; apply map_ext; intros s;
    by rewrite apply_marks_app.
Qed.

Lemma direct_pass_narrowed (ai : MinesweeperAI.t) :
  narrowed ai (direct_pass ai).1.
Proof.
  apply (direct_pass_rule (λ ai' _, narrowed ai ai')).
  - intros ai' _ c _ H _ _ _ _. apply (narrowed_mark ai ai' (MarkSafe c) H).
  - intros ai' _ c _ H _ _ _ _. apply (narrowed_mark ai ai' (MarkMine c) H).
  - apply narrowed_refl.
Qed.

(** ** The state returned by the loop is a fixpoint *)

Lemma set_knowledge_id (ai : MinesweeperAI.t) :
  set_knowledge ai (knowledge ai) = ai.
Proof. by destruct ai. Qed.

Lemma infer_at_fixpoint (fuel : nat) (ai ai' : MinesweeperAI.t) :
  infer fuel ai = Some ai' → ∃ fuel', (fuel' < fuel)%nat ∧ at_fixpoint fuel' ai'.
Proof.
  revert ai. induction fuel as [|fuel IH]; intros ai; [done|].
  rewrite infer_unfold.
  destruct (outer_loop fuel 0 _ _) as [[K stop]|] eqn:Hout; [|done].
  destruct stop.
  - intros (fuel' & Hlt & Hfix)%IH. exists fuel'. split; [lia|done].
  - intros [= <-].
    pose proof (outer_loop_appends _ _ _ _ _ _ Hout) as [-> Hflag]%appends_quiet.
    apply direct_pass_quiet in Hflag. rewrite Hflag in *. cbn [fst snd] in *.
    rewrite set_knowledge_id. exists fuel. split; [lia|]. by split.
Qed.

Lemma at_fixpoint_infer (fuel : nat) (ai : MinesweeperAI.t) :
  at_fixpoint fuel ai → infer (S fuel) ai = Some ai.
Proof.
  intros [Hd Ho]. rewrite infer_unfold, Hd. cbn [fst snd]. rewrite Ho.
  by rewrite set_knowledge_id.
Qed.

Lemma infer_evolves (fuel : nat) (ai ai' : MinesweeperAI.t) :
  infer fuel ai = Some ai' →
  ∃ ms added, knowledge ai' = map (apply_marks ms) (knowledge ai) ++ added.
Proof.
  revert ai. induction fuel as [|fuel IH]; intros ai; [done|].
  rewrite infer_unfold.
  destruct (outer_loop fuel 0 _ _) as [[K stop]|] eqn:Hout; [|done].
  destruct (direct_pass_narrowed ai) as (_ & _ & _ & _ & _ & ms1 & HK1).
  destruct (outer_loop_appends _ _ _ _ _ _ Hout) as (added1 & -> & _).
  destruct stop.
  - intros (ms2 & added2 & ->)%IH. cbn [knowledge set_knowledge].
    exists (ms1 ++ ms2), (map (apply_marks ms2) added1 ++ added2).
    rewrite HK1, map_app, map_map, app_assoc. do 2 f_equal.
    apply map_ext. intros s. by rewrite apply_marks_app.
  - intros [= <-]. cbn [knowledge set_knowledge].
    exists ms1, added1. by rewrite HK1.
Qed.

Lemma apply_marks_inert (ms : list mark) (s : Sentence.t) :
  Sentence.cells s = ∅ → apply_marks ms s = s.
Proof.
  intros Hs. unfold apply_marks. induction ms as [|m ms IH]; [done|].
  cbn [foldl]. rewrite <- IH at 2. f_equal.
  destruct m; unfold apply_mark, Sentence.mark_safe, Sentence.mark_mine;
    rewrite decide_False; set_solver.
Qed.

(** * Worked runs *)

Lemma run23_first : add_knowledge 10 (init 2 3) (0, 0) 1 = Some ai23_first.
Proof. by vm_compute. Qed.

Lemma run23_second : add_knowledge 10 ai23_first (0, 1) 2 = Some ai23_second.
Proof. by vm_compute. Qed.

Lemma run12_first : add_knowledge 10 (init 1 2) (0, 0) 0 = Some ai12_first.
Proof. by vm_compute. Qed.

Lemma run12_second : add_knowledge 10 ai12_first (0, 1) 0 = Some ai12_second.
Proof. by vm_compute. Qed.

(** * Properties of [add_knowledge] that need no assumption on the counts *)

(** C9.  When [add_knowledge] has returned, running the propagation loop
    once more (with the fuel that was enough for the call) returns the very
    same state: [safes], [mines] and [knowledge] are unchanged, and so are
    the other fields. *)
Theorem propagation_idempotent (fuel : nat) (ai : MinesweeperAI.t) (c : cell)
    (k : Z) (ai' : MinesweeperAI.t) :
  add_knowledge fuel ai c k = Some ai' → infer fuel ai' = Some ai'.
Proof.
  unfold add_knowledge. intros (fuel' & Hlt & Hfix)%infer_at_fixpoint.
  apply (infer_fuel_mono (S fuel')); [lia|]. by apply at_fixpoint_infer.
Qed.

Lemma propagation_idempotent_witness : infer 10 ai23_second = Some ai23_second.
Proof.
  apply (propagation_idempotent 10 ai23_first (0, 1) 2). by vm_compute.
Defined.

(** C4.  In the state returned by [add_knowledge], for any two sentences
    [A] and [B] of the knowledge with [cells A ⊆ cells B] and
    [cells B ∖ cells A] not empty, the sentence
    [{cells B ∖ cells A, count B - count A}] is in the knowledge too. *)
Theorem subset_resolution_closed (fuel : nat) (ai : MinesweeperAI.t) (c : cell)
    (k : Z) (ai' : MinesweeperAI.t) (A B : Sentence.t) :
  add_knowledge fuel ai c k = Some ai' →
  A ∈ knowledge ai' → B ∈ knowledge ai' →
  Sentence.cells A ⊆ Sentence.cells B →
  Sentence.cells B ∖ Sentence.cells A ≠ ∅ →
  Sentence.mk (Sentence.cells B ∖ Sentence.cells A)
              (Sentence.count B - Sentence.count A) ∈ knowledge ai'.
Proof.
  unfold add_knowledge. intros (fuel' & _ & _ & Hout)%infer_at_fixpoint.
  intros [i Hi]%list_elem_of_lookup_1 [j Hj]%list_elem_of_lookup_1 Hsub Hne.
  destruct (decide (sentence_based A B ∈ knowledge ai')) as [Hin|Hnin]; [done|].
  exfalso.
  assert (Hij : j ≠ i).
  { intros ->. rewrite Hi in Hj. injection Hj as ->. set_solver. }
  apply (outer_loop_quiet _ _ _ _ _ Hout i j A B); [lia|done|done|done|].
  split; [done|]. split; [|done]. rewrite size_non_empty_iff. by intros ?%leibniz_equiv.
Qed.

Lemma subset_resolution_closed_witness :
  Sentence.mk ({[ (0, 2); (1, 0); (1, 1); (1, 2) ]} ∖ {[ (1, 0); (1, 1) ]}) (2 - 1)
    ∈ knowledge ai23_second.
Proof.
  refine (subset_resolution_closed 10 ai23_first (0, 1) 2 ai23_second
            (Sentence.mk {[ (1, 0); (1, 1) ]} 1)
            (Sentence.mk {[ (0, 2); (1, 0); (1, 1); (1, 2) ]} 2) _ _ _ _ _).
  - by vm_compute.
  - apply list_elem_of_here.
  - apply list_elem_of_further, list_elem_of_here.
  - apply (bool_decide_unpack _). by vm_compute.
  - apply (bool_decide_unpack _). by vm_compute.
Defined.

(** C10.  The knowledge list is append-only across [add_knowledge]: the
    result is the old list, every sentence rewritten in place by the same
    sequence of [mark_safe]/[mark_mine] calls (which can only remove
    cells), then the sentence of the observation, then what the loop
    appended; nothing is removed.  A sentence without cells is never
    rewritten, so it stays for good; and the sentence of the observation is
    appended also when it has no cells, as the second call of the 1×2 run
    shows, after which the list holds two such sentences. *)
Theorem knowledge_append_only :
  (∀ fuel ai c k ai',
     add_knowledge fuel ai c k = Some ai' →
     ∃ ms added,
       knowledge ai' =
       map (apply_marks ms)
           (map (Sentence.mark_safe c) (knowledge ai) ++ [new_sentence ai c k])
       ++ added) ∧
  (∀ ms s, Sentence.cells (apply_marks ms s) ⊆ Sentence.cells s) ∧
  (∀ fuel ai c k ai' s,
     add_knowledge fuel ai c k = Some ai' →
     s ∈ knowledge ai → Sentence.cells s = ∅ → s ∈ knowledge ai') ∧
  (Sentence.cells (new_sentence ai12_first (0, 1) 0) = ∅ ∧
   add_knowledge 10 ai12_first (0, 1) 0 = Some ai12_second ∧
   knowledge ai12_second = [Sentence.mk ∅ 0; Sentence.mk ∅ 0]).
Proof.
  assert (H1 : ∀ fuel ai c k ai',
     add_knowledge fuel ai c k = Some ai' →
     ∃ ms added,
       knowledge ai' =
       map (apply_marks ms)
           (map (Sentence.mark_safe c) (knowledge ai) ++ [new_sentence ai c k])
       ++ added).
  { intros fuel ai c k ai' H. apply infer_evolves in H. exact H. }
  split; [exact H1|]. split; [apply apply_marks_cells|]. split.
  - intros fuel ai c k ai' s Hrun Hs Hempty.
    destruct (H1 _ _ _ _ _ Hrun) as (ms & added & ->).
    assert (Hsafe : Sentence.mark_safe c s = s).
    { unfold Sentence.mark_safe. by rewrite decide_False by set_solver. }
    apply elem_of_app. left. apply list_elem_of_fmap.
    exists s. split; [by rewrite apply_marks_inert|].
    apply elem_of_app. left. apply list_elem_of_fmap. by exists s.
  - split; [by vm_compute|]. split; [apply run12_second | done].
Qed.

(** C2 (as amended).  Only the subset-resolution pass checks for
    duplicates: what it appends are sentences equal to none of the list it
    started from and pairwise different, so that a list without equal
    entries has none after the pass. *)
Theorem subset_pass_appends_only_new (fuel i : nat) (K : list Sentence.t)
    (stop : bool) (K' : list Sentence.t) (stop' : bool) :
  outer_loop fuel i K stop = Some (K', stop') →
  ∃ added, K' = K ++ added ∧ NoDup added ∧ (∀ s, s ∈ added → s ∉ K) ∧
           (NoDup K → NoDup K').
Proof.
  intros (added & -> & Hnd & Hnew & _)%outer_loop_appends.
  exists added. repeat split; try done.
  intros HK. apply NoDup_app. repeat split; try done.
  intros s Hs Hs'. by apply (Hnew s).
Qed.

Lemma subset_pass_appends_only_new_witness :
  ∃ added,
    knowledge ai23_second =
      [Sentence.mk {[ (1, 0); (1, 1) ]} 1;
       Sentence.mk {[ (0, 2); (1, 0); (1, 1); (1, 2) ]} 2] ++ added ∧
    NoDup added ∧
    (∀ s, s ∈ added →
       s ∉ [Sentence.mk {[ (1, 0); (1, 1) ]} 1;
            Sentence.mk {[ (0, 2); (1, 0); (1, 1); (1, 2) ]} 2]) ∧
    (NoDup [Sentence.mk {[ (1, 0); (1, 1) ]} 1;
            Sentence.mk {[ (0, 2); (1, 0); (1, 1); (1, 2) ]} 2] →
     NoDup (knowledge ai23_second)).
Proof.
  refine (subset_pass_appends_only_new 9 0 _ false _ true _).
  by vm_compute.
Defined.

(** C2 (as stated) fails.  On a grid of one row and two columns,
    [add_knowledge((0,0), 0)] leaves the single sentence [{} = 0]; the
    sentence built by [add_knowledge((0,1), 0)] is [{} = 0] again, equal to
    the one in the list, and it is appended all the same: the list ends
    with two equal entries. *)
Lemma statements_can_repeat :
  add_knowledge 10 (init 1 2) (0, 0) 0 = Some ai12_first ∧
  new_sentence ai12_first (0, 1) 0 ∈ knowledge (probed ai12_first (0, 1)) ∧
  knowledge (add_sentence ai12_first (0, 1) 0) = [Sentence.mk ∅ 0; Sentence.mk ∅ 0] ∧
  add_knowledge 10 ai12_first (0, 1) 0 = Some ai12_second ∧
  ¬ NoDup (knowledge ai12_second).
Proof.
  split; [apply run12_first|]. split.
  { apply (bool_decide_unpack _). by vm_compute. }
  split; [by vm_compute|]. split; [apply run12_second|].
  cbn. intros [Hnin _]%NoDup_cons. apply Hnin, list_elem_of_here.
Qed.

(** * Knowledge that is true of a board *)

Lemma mines_in_union (g : Minesweeper.t) (X Y : gset cell) :
  X ## Y → mines_in g (X ∪ Y) = mines_in g X + mines_in g Y.
Proof.
  intros Hdisj. unfold mines_in.
  assert (Hd : filter (mine g) X ## filter (mine g) Y) by set_solver.
  assert (Hu : filter (mine g) (X ∪ Y) = filter (mine g) X ∪ filter (mine g) Y)
    by set_solver.
  rewrite Hu, (size_union _ _ Hd). lia.
Qed.

Lemma mines_in_singleton (g : Minesweeper.t) (c : cell) :
  mines_in g {[c]} = if decide (mine g c) then 1 else 0.
Proof.
  unfold mines_in. case_decide.
  - assert (Hf : filter (mine g) ({[c]} : gset cell) = {[c]}) by set_solver.
    by rewrite Hf, size_singleton.
  - assert (Hf : filter (mine g) ({[c]} : gset cell) = ∅) by set_solver.
    by rewrite Hf, size_empty.
Qed.

Lemma mines_in_remove (g : Minesweeper.t) (X : gset cell) (c : cell) :
  c ∈ X →
  mines_in g (X ∖ {[c]}) = mines_in g X - (if decide (mine g c) then 1 else 0).
Proof.
  intros Hc. rewrite <- mines_in_singleton.
  assert (HX : X = (X ∖ {[c]}) ∪ {[c]}).
  { apply set_eq. intros x. destruct (decide (x = c)); set_solver. }
  rewrite HX at 2. rewrite mines_in_union by set_solver. lia.
Qed.

Lemma mines_in_difference (g : Minesweeper.t) (X Y : gset cell) :
  X ⊆ Y → mines_in g (Y ∖ X) = mines_in g Y - mines_in g X.
Proof.
  intros Hsub.
  assert (HY : Y = X ∪ (Y ∖ X)).
  { apply set_eq. intros x. destruct (decide (x ∈ X)); set_solver. }
  rewrite HY at 2. rewrite mines_in_union by set_solver. lia.
Qed.

Lemma mines_in_zero (g : Minesweeper.t) (X : gset cell) (c : cell) :
  mines_in g X = 0 → c ∈ X → ¬ mine g c.
Proof.
  unfold mines_in. intros Hz Hc Hm.
  assert (Hsz : size (filter (mine g) X) = 0%nat) by lia.
  apply size_empty_iff in Hsz. set_solver.
Qed.

Lemma mines_in_full (g : Minesweeper.t) (X : gset cell) (c : cell) :
  mines_in g X = Z.of_nat (size X) → c ∈ X → mine g c.
Proof.
  unfold mines_in. intros Hfull Hc.
  destruct (decide (mine g c)) as [|Hm]; [done|]. exfalso.
  assert (Hlt : (size (filter (mine g) X) < size X)%nat); [|lia].
  apply subset_size. split; [set_solver|].
  intros Hsub. specialize (Hsub c Hc). set_solver.
Qed.

(** ** The two marks and the resolution step keep sentences true *)

Lemma true_mark_safe g c s :
  ¬ mine g c → true_sentence g s → true_sentence g (Sentence.mark_safe c s).
Proof.
  unfold true_sentence, Sentence.mark_safe. intros Hc Hs.
  case_decide; [|done]. cbn. rewrite mines_in_remove by done.
  rewrite decide_False by done. lia.
Qed.

Lemma true_mark_mine g c s :
  mine g c → true_sentence g s → true_sentence g (Sentence.mark_mine c s).
Proof.
  unfold true_sentence, Sentence.mark_mine. intros Hc Hs.
  case_decide; [|done]. cbn. rewrite mines_in_remove by done.
  rewrite decide_True by done. lia.
Qed.

Lemma true_sentence_based g s1 s2 :
  true_sentence g s1 → true_sentence g s2 →
  Sentence.cells s1 ⊆ Sentence.cells s2 →
  true_sentence g (sentence_based s1 s2).
Proof.
  unfold true_sentence, sentence_based. intros H1 H2 Hsub. cbn.
  rewrite mines_in_difference by done. lia.
Qed.

Lemma mark_safe_cells c s : Sentence.cells (Sentence.mark_safe c s) ⊆ Sentence.cells s.
Proof. unfold Sentence.mark_safe. case_decide; cbn; set_solver. Qed.

Lemma mark_mine_cells c s : Sentence.cells (Sentence.mark_mine c s) ⊆ Sentence.cells s.
Proof. unfold Sentence.mark_mine. case_decide; cbn; set_solver. Qed.

Lemma sound_mark_safe g U ai c :
  sound g U ai → ¬ mine g c → sound g U (mark_safe ai c).
Proof.
  intros [(Hh & Hw & Hs & Hm & Hmv & HK) HU] Hc.
  unfold sound, consistent, mark_safe.
  cbn [height width safes mines moves_made knowledge].
  split_and!; try done.
  - intros c' [->%elem_of_singleton|Hc']%elem_of_union; [done|by apply Hs].
  - set_solver.
  - apply Forall_map. eapply Forall_impl; [exact HK|].
    intros s. by apply true_mark_safe.
  - apply Forall_map. eapply Forall_impl; [exact HU|].
    intros s Hsub. cbn beta. etrans; [apply mark_safe_cells|done].
Qed.

Lemma sound_mark_mine g U ai c :
  sound g U ai → mine g c → sound g U (mark_mine ai c).
Proof.
  intros [(Hh & Hw & Hs & Hm & Hmv & HK) HU] Hc.
  unfold sound, consistent, mark_mine.
  cbn [height width safes mines moves_made knowledge].
  split_and!; try done.
  - intros c' [->%elem_of_singleton|Hc']%elem_of_union; [done|by apply Hm].
  - apply Forall_map. eapply Forall_impl; [exact HK|].
    intros s. by apply true_mark_mine.
  - apply Forall_map. eapply Forall_impl; [exact HU|].
    intros s Hsub. cbn beta. etrans; [apply mark_mine_cells|done].
Qed.

Lemma sound_weaken g U U' ai : sound g U ai → U ⊆ U' → sound g U' ai.
Proof.
  intros [Hc HU] Hsub. split; [done|].
  eapply Forall_impl; [exact HU|]. intros s ?. cbn in *. set_solver.
Qed.

Lemma consistent_sound g ai : consistent g ai → sound g (universe (knowledge ai)) ai.
Proof.
  intros Hc. split; [done|]. apply Forall_forall. intros s Hs.
  unfold universe. intros c Hcs. apply elem_of_union_list.
  exists (Sentence.cells s). split; [|done]. apply list_elem_of_fmap. by exists s.
Qed.

(** ** The loop keeps the state sound *)

(** A predicate on sentences kept by the resolution step is kept by the
    subset-resolution pass. *)
Section resolution_closed.
Variable P : Sentence.t → Prop.

Hypothesis P_based : ∀ s1 s2,
  P s1 → P s2 → Sentence.cells s1 ⊆ Sentence.cells s2 → P (sentence_based s1 s2).

Lemma inner_loop_Forall (f : nat) s1 i1 i2 K stop K' stop' :
  P s1 → Forall P K →
  inner_loop f s1 i1 i2 K stop = Some (K', stop') → Forall P K'.
Proof.
  intros Hs1. revert i2 K stop.
  induction f as [|f IH]; intros i2 K stop HK; [done|].
  rewrite inner_loop_unfold.
  destruct (K !! i2) as [s2|] eqn:Hi2.
  - case_decide as Hr.
    + apply IH. apply Forall_app. split; [done|].
      apply Forall_singleton. apply P_based; [done| |apply Hr].
      eapply Forall_lookup_1; [exact HK|exact Hi2].
    + by apply IH.
  - by intros [= <- <-].
Qed.

Lemma outer_loop_Forall (f : nat) i1 K stop K' stop' :
  Forall P K → outer_loop f i1 K stop = Some (K', stop') → Forall P K'.
Proof.
  revert i1 K stop. induction f as [|f IH]; intros i1 K stop HK; [done|].
  rewrite outer_loop_unfold.
  destruct (K !! i1) as [s1|] eqn:Hi1.
  - destruct (inner_loop f s1 i1 0 K stop) as [[K1 stop1]|] eqn:Hin; [|done].
    apply IH. eapply inner_loop_Forall; [|exact HK|exact Hin].
    eapply Forall_lookup_1; [exact HK|exact Hi1].
  - by intros [= <- <-].
Qed.
End resolution_closed.

Lemma outer_loop_sound g U (f : nat) i1 (ai : MinesweeperAI.t) stop K' stop' :
  sound g U ai →
  outer_loop f i1 (knowledge ai) stop = Some (K', stop') →
  sound g U (set_knowledge ai K').
Proof.
  intros [(Hh & Hw & Hs & Hm & Hmv & HK) HU] Hout.
  unfold sound, consistent, set_knowledge.
  cbn [height width safes mines moves_made knowledge].
  split_and!; try done.
  - eapply (outer_loop_Forall (true_sentence g)); [|exact HK|exact Hout].
    intros s1 s2. apply true_sentence_based.
  - eapply (outer_loop_Forall (λ s, Sentence.cells s ⊆ U)); [|exact HU|exact Hout].
    intros s1 s2 _ H2 _. unfold sentence_based. cbn. set_solver.
Qed.

Lemma size_difference_insert_lt (U X : gset cell) (c : cell) :
  c ∈ U → c ∉ X → (size (U ∖ ({[c]} ∪ X)) < size (U ∖ X))%nat.
Proof.
  intros HU HX. apply subset_size. split; [set_solver|].
  intros Hsub. assert (Hc : c ∈ U ∖ X) by set_solver.
  apply Hsub in Hc. set_solver.
Qed.

Lemma sound_cells_in g U ai s c :
  sound g U ai → s ∈ knowledge ai → c ∈ Sentence.cells s → c ∈ U.
Proof.
  intros [_ HU] Hs Hc. rewrite Forall_forall in HU. by apply (HU s Hs).
Qed.

Lemma sound_true g U ai s :
  sound g U ai → s ∈ knowledge ai → true_sentence g s.
Proof.
  intros [(_ & _ & _ & _ & _ & HK) _] Hs. rewrite Forall_forall in HK. by apply HK.
Qed.

Lemma direct_pass_sound g U (ai : MinesweeperAI.t) :
  sound g U ai →
  sound g U (direct_pass ai).1 ∧
  (unknown U (direct_pass ai).1 ≤ unknown U ai)%nat ∧
  ((direct_pass ai).2 = true → (unknown U (direct_pass ai).1 < unknown U ai)%nat).
Proof.
  intros Hsound.
  apply (direct_pass_rule (λ ai' b,
    sound g U ai' ∧ (unknown U ai' ≤ unknown U ai)%nat ∧
    (b = true → (unknown U ai' < unknown U ai)%nat))).
  - intros ai' b c s (Hs' & Hle & _) Hs Hcount Hc Hnew.
    assert (Hnm : ¬ mine g c).
    { eapply mines_in_zero; [|exact Hc].
      rewrite <- (sound_true g U ai' s Hs' Hs). done. }
    assert (HcU : c ∈ U) by (by eapply sound_cells_in).
    assert (Hlt : (unknown U (mark_safe ai' c) < unknown U ai')%nat).
    { unfold unknown, mark_safe. cbn [safes mines].
      pose proof (size_difference_insert_lt U (safes ai') c HcU Hnew). lia. }
    split; [by apply sound_mark_safe|]. split; [lia|]. intros _. lia.
  - intros ai' b c s (Hs' & Hle & _) Hs Hcount Hc Hnew.
    assert (Hnm : mine g c).
    { eapply mines_in_full; [|exact Hc].
      rewrite <- (sound_true g U ai' s Hs' Hs). done. }
    assert (HcU : c ∈ U) by (by eapply sound_cells_in).
    assert (Hlt : (unknown U (mark_mine ai' c) < unknown U ai')%nat).
    { unfold unknown, mark_mine. cbn [safes mines].
      pose proof (size_difference_insert_lt U (mines ai') c HcU Hnew). lia. }
    split; [by apply sound_mark_mine|]. split; [lia|]. intros _. lia.
  - split; [done|]. split; [lia|done].
Qed.

Lemma infer_sound g U (fuel : nat) (ai ai' : MinesweeperAI.t) :
  sound g U ai → infer fuel ai = Some ai' → sound g U ai'.
Proof.
  revert ai. induction fuel as [|fuel IH]; intros ai Hsound; [done|].
  rewrite infer_unfold.
  destruct (outer_loop fuel 0 _ _) as [[K stop]|] eqn:Hout; [|done].
  destruct (direct_pass_sound g U ai Hsound) as (Hs1 & _ & _).
  pose proof (outer_loop_sound g U _ _ _ _ _ _ Hs1 Hout) as Hs2.
  destruct stop; [by apply IH|]. by intros [= <-].
Qed.

(** ** The sentence of a true observation is true *)

Lemma nearby_step_cases (g : Minesweeper.t) (c n : cell) (k : Z) :
  Minesweeper.nearby_step g c k n =
  if decide (n ≠ c ∧ mine g n) then k + 1 else k.
Proof.
  unfold Minesweeper.nearby_step.
  destruct (decide (n ≠ c ∧ mine g n)) as [[Hne [Hb Hat]]|Hno].
  - rewrite decide_False by done. rewrite decide_True by done. by rewrite Hat.
  - destruct (decide (n = c)); [done|]. case_decide as Hb; [|done].
    destruct (Minesweeper.board_at g n.1 n.2) eqn:Hat; [|done].
    exfalso. apply Hno. split; [done|]. unfold mine. by split.
Qed.

Lemma nearby_step_fold (g : Minesweeper.t) (c : cell) (l : list cell) :
  ∀ k, foldl (Minesweeper.nearby_step g c) k l =
       k + Z.of_nat (length (filter (λ n, n ≠ c ∧ mine g n) l)).
Proof.
  induction l as [|n l IH]; intros k; cbn [foldl].
  - rewrite filter_nil. cbn. lia.
  - rewrite IH, filter_cons, nearby_step_cases.
    case_decide; cbn [length]; lia.
Qed.

Lemma length_filter_split {A : Type} (PA PB PC PD : A → Prop)
    `{!∀ x, Decision (PA x), !∀ x, Decision (PB x),
      !∀ x, Decision (PC x), !∀ x, Decision (PD x)} (l : list A) :
  (∀ x, x ∈ l → (PA x ↔ PB x ∨ (PD x ∧ PC x))) →
  (∀ x, PB x → ¬ PD x) →
  length (filter PA l) =
  (length (filter PB l) + length (filter PC (filter PD l)))%nat.
Proof.
  intros Hiff Hexcl. induction l as [|x l IH]; [done|].
  rewrite !filter_cons.
  assert (Hx := Hiff x (list_elem_of_here _ _)).
  assert (IH' : length (filter PA l) =
                (length (filter PB l) + length (filter PC (filter PD l)))%nat).
  { apply IH. intros y Hy. apply Hiff. by apply list_elem_of_further. }
  destruct (decide (PB x)) as [HB|HB].
  - rewrite decide_True by tauto.
    rewrite (decide_False (P := PD x)) by (by apply Hexcl).
    cbn [length]. lia.
  - destruct (decide (PD x)) as [HD|HD].
    + rewrite filter_cons. destruct (decide (PC x)) as [HC|HC].
      * rewrite decide_True by tauto. cbn [length]. lia.
      * rewrite decide_False by tauto. lia.
    + rewrite decide_False by tauto. lia.
Qed.

Lemma mines_in_list_to_set (g : Minesweeper.t) (l : list cell) :
  NoDup l → mines_in g (list_to_set l) = Z.of_nat (length (filter (mine g) l)).
Proof.
  intros Hnd. unfold mines_in. f_equal.
  rewrite <- (size_list_to_set (C := gset cell)) by (by apply NoDup_filter).
  f_equal. apply set_eq. intros x.
  rewrite elem_of_filter, !elem_of_list_to_set, list_elem_of_filter. done.
Qed.

Lemma new_sentence_true g ai c :
  consistent g ai → ¬ mine g c →
  true_sentence g (new_sentence ai c (Minesweeper.nearby_mines g c)).
Proof.
  intros (Hh & Hw & Hs & Hm & Hmv & HK) Hc.
  unfold new_sentence. fold (probed ai c).
  rewrite neighbour_loop_window, neighbour_step_fold, nearby_mines_window,
    nearby_step_fold.
  unfold true_sentence. cbn [Sentence.cells Sentence.count fst snd].
  rewrite (left_id_L ∅ (∪)).
  rewrite mines_in_list_to_set by apply NoDup_filter, NoDup_window.
  rewrite (length_filter_split (λ n, n ≠ c ∧ mine g n)
             (mined_neighbour (probed ai c) c) (mine g)
             (unknown_neighbour (probed ai c) c)).
  - lia.
  - intros n _. unfold mined_neighbour, unknown_neighbour, in_bounds, probed, mine.
    cbn [height width safes mines moves_made mark_safe].
    rewrite Hh, Hw, !not_elem_of_union, !elem_of_singleton.
    split.
    + intros (Hne & Hb & Hat).
      destruct (decide (n ∈ mines ai)) as [Hin|Hnin]; [tauto|right].
      assert (Hmine : mine g n) by done.
      assert (n ∉ safes ai) by (intros ?; by apply (Hs n)).
      assert (n ∉ moves_made ai) by set_solver.
      tauto.
    + intros [((Hne & Hb) & Hin)|(((Hne & Hb) & _) & _ & Hat)]; [|tauto].
      split; [done|]. by apply Hm.
  - unfold mined_neighbour, unknown_neighbour. tauto.
Qed.

Lemma add_sentence_sound g U ai c :
  sound g U ai → ¬ mine g c →
  sound g (U ∪ Sentence.cells (new_sentence ai c (Minesweeper.nearby_mines g c)))
        (add_sentence ai c (Minesweeper.nearby_mines g c)).
Proof.
  intros Hsound Hc.
  pose proof (new_sentence_true g ai c (proj1 Hsound) Hc) as Hnew.
  destruct Hsound as [(Hh & Hw & Hs & Hm & Hmv & HK) HU].
  unfold sound, consistent, add_sentence, set_knowledge, mark_safe.
  cbn [height width safes mines moves_made knowledge].
  split_and!; try done.
  - intros c' [->%elem_of_singleton|Hc']%elem_of_union; [done|by apply Hs].
  - set_solver.
  - apply Forall_app. split; [|by apply Forall_singleton].
    apply Forall_map. eapply Forall_impl; [exact HK|].
    intros s. by apply true_mark_safe.
  - apply Forall_app. split; [|apply Forall_singleton; set_solver].
    apply Forall_map. eapply Forall_impl; [exact HU|].
    intros s Hsub. cbn beta. pose proof (mark_safe_cells c s). set_solver.
Qed.

(** * Termination on sound states

    A true sentence is determined by its cells, and the cells of every
    sentence stay inside [U]: the sentences the loop can ever hold are
    among the finitely many [candidates]. *)

Lemma elem_of_powerlist (l : list cell) :
  ∀ X : gset cell, X ⊆ list_to_set l → X ∈ powerlist l.
Proof.
  induction l as [|x l IH]; intros X HX; cbn [powerlist].
  - assert (X = ∅) as -> by set_solver. apply list_elem_of_here.
  - apply elem_of_app. destruct (decide (x ∈ X)) as [Hx|Hx].
    + right. apply list_elem_of_In, in_map_iff. exists (X ∖ {[x]}). split.
      * apply set_eq. intros y. destruct (decide (y = x)); set_solver.
      * apply list_elem_of_In, IH. set_solver.
    + left. apply IH. set_solver.
Qed.

Lemma elem_of_candidates g U s :
  true_sentence g s → Sentence.cells s ⊆ U → s ∈ candidates g U.
Proof.
  intros Htrue Hsub. unfold candidates.
  apply list_elem_of_In, in_map_iff. exists (Sentence.cells s). split.
  - destruct s as [X k]. unfold true_sentence in Htrue. cbn in *. by subst k.
  - apply list_elem_of_In, elem_of_powerlist.
    intros c Hc. apply elem_of_list_to_set, elem_of_elements. by apply Hsub.
Qed.

Lemma length_filter_mono {A : Type} (P Q : A → Prop)
    `{!∀ x, Decision (P x), !∀ x, Decision (Q x)} (l : list A) :
  (∀ x, P x → Q x) → (length (filter P l) ≤ length (filter Q l))%nat.
Proof.
  intros HPQ. induction l as [|x l IH]; [done|].
  rewrite !filter_cons. destruct (decide (P x)) as [HP|HP].
  - rewrite decide_True by auto. cbn [length]. lia.
  - case_decide; cbn [length]; lia.
Qed.

Lemma length_filter_mono_lt {A : Type} (P Q : A → Prop)
    `{!∀ x, Decision (P x), !∀ x, Decision (Q x)} (l : list A) (a : A) :
  (∀ x, P x → Q x) → a ∈ l → Q a → ¬ P a →
  (length (filter P l) < length (filter Q l))%nat.
Proof.
  intros HPQ Ha HQ HP. induction l as [|x l IH]; [by apply elem_of_nil in Ha|].
  rewrite !filter_cons. apply elem_of_cons in Ha as [<-|Ha].
  - rewrite decide_False by done. rewrite decide_True by done. cbn [length].
    pose proof (length_filter_mono P Q l HPQ). lia.
  - specialize (IH Ha). destruct (decide (P x)) as [HP'|HP'].
    + rewrite decide_True by auto. cbn [length]. lia.
    + case_decide; cbn [length]; lia.
Qed.

Lemma missing_app_le g U K A : (missing g U (K ++ A) ≤ missing g U K)%nat.
Proof. apply length_filter_mono. set_solver. Qed.

Lemma missing_app_lt g U K A a :
  a ∈ A → a ∈ candidates g U → a ∉ K →
  (missing g U (K ++ A) < missing g U K)%nat.
Proof.
  intros HA Hc HK. apply (length_filter_mono_lt _ _ _ a); [set_solver|done|done|].
  set_solver.
Qed.

Lemma fits_based g U s1 s2 :
  fits g U s1 → fits g U s2 → Sentence.cells s1 ⊆ Sentence.cells s2 →
  fits g U (sentence_based s1 s2).
Proof.
  intros [H1 _] [H2 HU] Hsub. split; [by apply true_sentence_based|].
  unfold sentence_based. cbn. set_solver.
Qed.

Lemma sound_fits g U ai : sound g U ai → Forall (fits g U) (knowledge ai).
Proof.
  intros [(_ & _ & _ & _ & _ & HK) HU]. apply Forall_and. by split.
Qed.

Lemma appends_missing g U K stop K' stop' :
  appends K stop K' stop' → Forall (fits g U) K' →
  (K' = K ∧ stop' = stop) ∨ (stop' = true ∧ (missing g U K' < missing g U K)%nat).
Proof.
  intros (added & -> & _ & Hnew & ->) Hfits.
  destruct added as [|a added]; [left; by rewrite app_nil_r|right].
  split; [done|]. apply (missing_app_lt g U K _ a).
  - apply list_elem_of_here.
  - apply Forall_app in Hfits as [_ Hfits]. apply Forall_cons in Hfits as [[] _].
    by apply elem_of_candidates.
  - apply Hnew, list_elem_of_here.
Qed.

Lemma inner_loop_terminates g U s1 i1 :
  fits g U s1 →
  ∀ n d K i2 stop,
    Forall (fits g U) K → (missing g U K ≤ n)%nat → (length K ≤ i2 + d)%nat →
    ∃ f r, inner_loop f s1 i1 i2 K stop = Some r.
Proof.
  intros Hs1. induction n as [n IHn] using lt_wf_ind.
  induction d as [|d IHd]; intros K i2 stop HK Hn Hd.
  - exists 1%nat, (K, stop). rewrite inner_loop_unfold.
    rewrite (proj2 (lookup_ge_None K i2)) by lia. done.
  - destruct (K !! i2) as [s2|] eqn:Hi2.
    + destruct (decide (i1 ≠ i2 ∧ resolves K s1 s2)) as [Hr|Hr].
      * assert (Hfit : fits g U (sentence_based s1 s2)).
        { apply fits_based; [done| |apply Hr].
          eapply Forall_lookup_1; [exact HK|exact Hi2]. }
        assert (Hlt : (missing g U (K ++ [sentence_based s1 s2])
                       < missing g U K)%nat).
        { apply (missing_app_lt g U K _ (sentence_based s1 s2));
            [apply list_elem_of_here| |apply Hr].
          destruct Hfit. by apply elem_of_candidates. }
        destruct (IHn (missing g U (K ++ [sentence_based s1 s2])) ltac:(lia)
                      (length (K ++ [sentence_based s1 s2]))
                      (K ++ [sentence_based s1 s2]) (S i2) true)
          as (f & r & Hf); [|lia|lia|].
        { apply Forall_app. split; [done|by apply Forall_singleton]. }
        exists (S f), r. rewrite inner_loop_unfold, Hi2.
        by rewrite decide_True.
      * destruct (IHd K (S i2) stop HK Hn ltac:(lia)) as (f & r & Hf).
        exists (S f), r. rewrite inner_loop_unfold, Hi2.
        by rewrite decide_False.
    + exists 1%nat, (K, stop). by rewrite inner_loop_unfold, Hi2.
Qed.

Lemma outer_loop_terminates g U :
  ∀ n d K i1 stop,
    Forall (fits g U) K → (missing g U K ≤ n)%nat → (length K ≤ i1 + d)%nat →
    ∃ f r, outer_loop f i1 K stop = Some r.
Proof.
  induction n as [n IHn] using lt_wf_ind.
  induction d as [|d IHd]; intros K i1 stop HK Hn Hd.
  - exists 1%nat, (K, stop). rewrite outer_loop_unfold.
    rewrite (proj2 (lookup_ge_None K i1)) by lia. done.
  - destruct (K !! i1) as [s1|] eqn:Hi1.
    + assert (Hs1 : fits g U s1) by (eapply Forall_lookup_1; eauto).
      destruct (inner_loop_terminates g U s1 i1 Hs1 (missing g U K) (length K)
                  K 0%nat stop HK ltac:(lia) ltac:(lia))
        as (f1 & [K1 stop1] & Hin).
      assert (HK1 : Forall (fits g U) K1).
      { eapply (inner_loop_Forall (fits g U)); [|exact Hs1|exact HK|exact Hin].
        apply fits_based. }
      assert (∃ f2 r, outer_loop f2 (S i1) K1 stop1 = Some r) as (f2 & r & Hout).
      { destruct (appends_missing g U K stop K1 stop1) as [[-> ->]|[_ Hlt]];
          [by eapply inner_loop_appends|done| |].
        - apply IHd; [done|done|lia].
        - apply (IHn (missing g U K1) ltac:(lia) (length K1)); [done|lia|lia]. }
      exists (S (f1 + f2)), r. rewrite outer_loop_unfold, Hi1.
      rewrite (inner_loop_fuel_mono f1 (f1 + f2) _ _ _ _ _ _ ltac:(lia) Hin).
      apply (outer_loop_fuel_mono f2); [lia|done].
    + exists 1%nat, (K, stop). by rewrite outer_loop_unfold, Hi1.
Qed.

Lemma unknown_set_knowledge U ai K : unknown U (set_knowledge ai K) = unknown U ai.
Proof. done. Qed.

Lemma infer_terminates g U :
  ∀ n1 n2 ai,
    sound g U ai → (unknown U ai ≤ n1)%nat →
    (missing g U (knowledge ai) ≤ n2)%nat →
    ∃ f ai', infer f ai = Some ai'.
Proof.
  induction n1 as [n1 IH1] using lt_wf_ind.
  induction n2 as [n2 IH2] using lt_wf_ind.
  intros ai Hsound Hn1 Hn2.
  destruct (direct_pass_sound g U ai Hsound) as (Hs1 & Hle & Hlt).
  destruct (outer_loop_terminates g U (missing g U (knowledge (direct_pass ai).1))
              (length (knowledge (direct_pass ai).1))
              (knowledge (direct_pass ai).1) 0%nat (direct_pass ai).2
              (sound_fits _ _ _ Hs1) ltac:(lia) ltac:(lia))
    as (f1 & [K2 stop2] & Hout).
  pose proof (outer_loop_sound g U _ _ _ _ _ _ Hs1 Hout) as Hs2.
  destruct stop2; cycle 1.
  { exists (S f1), (set_knowledge (direct_pass ai).1 K2).
    by rewrite infer_unfold, Hout. }
  assert (∃ f2 ai', infer f2 (set_knowledge (direct_pass ai).1 K2) = Some ai')
    as (f2 & ai' & Hrec).
  { destruct ((direct_pass ai).2) eqn:Hflag.
    - apply (IH1 (unknown U (direct_pass ai).1) ltac:(auto with lia)
                 (missing g U K2)); [done|by rewrite unknown_set_knowledge|done].
    - apply direct_pass_quiet in Hflag. rewrite Hflag in *. cbn [fst snd] in *.
      destruct (appends_missing g U (knowledge ai) false K2 true)
        as [[_ ?]|[_ Hlt']]; [by eapply outer_loop_appends| |done|].
      { apply (sound_fits g U _ Hs2). }
      apply (IH2 (missing g U K2) ltac:(lia)); [done| |done].
      rewrite unknown_set_knowledge. lia. }
  exists (S (f1 + f2)), ai'. rewrite infer_unfold.
  rewrite (outer_loop_fuel_mono f1 (f1 + f2) _ _ _ _ ltac:(lia) Hout).
  apply (infer_fuel_mono f2); [lia|done].
Qed.

(** * Termination of [add_knowledge] *)

(** C3 (as amended).  When the state of the AI agrees with a board [g],
    the probed cell holds no mine and the count is the number of mines
    around it on that board, [add_knowledge] returns: some fuel is enough
    for its loop. *)
Theorem add_knowledge_terminates (g : Minesweeper.t) (ai : MinesweeperAI.t)
    (c : cell) :
  consistent g ai → ¬ mine g c →
  ∃ fuel ai', add_knowledge fuel ai c (Minesweeper.nearby_mines g c) = Some ai'.
Proof.
  intros Hcons Hc. unfold add_knowledge.
  pose proof (add_sentence_sound g _ ai c (consistent_sound g ai Hcons) Hc) as Hs.
  eapply infer_terminates; [exact Hs|done|done].
Qed.

Lemma consistent_ai23_first : consistent board23 ai23_first.
Proof.
  unfold consistent, ai23_first.
  cbn [height width safes mines moves_made knowledge]. split_and!; try done.
  - intros c ->%elem_of_singleton. apply (bool_decide_unpack _). by vm_compute.
  - apply Forall_singleton. by vm_compute.
Qed.

Lemma add_knowledge_terminates_witness :
  ∃ fuel ai',
    add_knowledge fuel ai23_first (0, 1) (Minesweeper.nearby_mines board23 (0, 1))
    = Some ai'.
Proof.
  apply (add_knowledge_terminates board23 ai23_first (0, 1)).
  - apply consistent_ai23_first.
  - apply (bool_decide_unpack _). by vm_compute.
Defined.

(** ** A call that does not return *)

Lemma chain_snoc (n : nat) :
  chain n ++ [Sentence.mk {[ (0, 2) ]} (5 - 2 * Z.of_nat n)] = chain (S n).
Proof. unfold chain. by rewrite seq_S, map_app. Qed.

Lemma chain_length (n : nat) : length (chain n) = S n.
Proof. unfold chain. cbn [length]. by rewrite length_map, length_seq. Qed.

Lemma chain_lookup_last (n : nat) :
  chain (S n) !! S n = Some (Sentence.mk {[ (0, 2) ]} (5 - 2 * Z.of_nat n)).
Proof.
  rewrite <- chain_snoc. apply list_lookup_middle. by rewrite chain_length.
Qed.

Lemma chain_fresh (n : nat) :
  Sentence.mk {[ (0, 2) ]} (5 - 2 * Z.of_nat n) ∉ chain n.
Proof.
  unfold chain. intros [Heq|Hin]%elem_of_cons.
  - injection Heq as Heq _. set_solver.
  - apply list_elem_of_In, in_map_iff in Hin as (j & Heq & Hj).
    apply in_seq in Hj. injection Heq as Heq. lia.
Qed.

Lemma inner_loop_chain_diverges (fuel : nat) :
  ∀ n stop, inner_loop fuel (Sentence.mk ∅ 2) 0 (S n) (chain (S n)) stop = None.
Proof.
  induction fuel as [|fuel IH]; intros n stop; [done|].
  rewrite inner_loop_unfold, chain_lookup_last.
  assert (Hbased : sentence_based (Sentence.mk ∅ 2)
                     (Sentence.mk {[ (0, 2) ]} (5 - 2 * Z.of_nat n))
                   = Sentence.mk {[ (0, 2) ]} (5 - 2 * Z.of_nat (S n))).
  { unfold sentence_based. cbn [Sentence.cells Sentence.count].
    rewrite difference_empty_L. f_equal. lia. }
  rewrite decide_True.
  - rewrite Hbased, chain_snoc. apply IH.
  - split; [done|]. unfold resolves. rewrite Hbased.
    cbn [Sentence.cells]. split; [set_solver|]. split.
    + rewrite difference_empty_L, size_singleton. done.
    + apply chain_fresh.
Qed.

(** C3 (as stated) fails.  On a grid of one row and four columns,
    [add_knowledge((0,0), 2)] returns, leaving the sentence [{(0,1)} = 2];
    then [add_knowledge((0,1), 5)] turns it into [{} = 2], appends
    [{(0,2)} = 5], and its inner loop appends [{(0,2)} = 3],
    [{(0,2)} = 1], [{(0,2)} = -1], ... without end: no fuel is enough. *)
Lemma add_knowledge_can_diverge :
  add_knowledge 10 (init 1 4) (0, 0) 2 = Some ai14_first ∧
  knowledge (add_sentence ai14_first (0, 1) 5) =
    [Sentence.mk ∅ 2; Sentence.mk {[ (0, 2) ]} 5] ∧
  ∀ fuel, add_knowledge fuel ai14_first (0, 1) 5 = None.
Proof.
  split; [by vm_compute|]. split; [by vm_compute|].
  intros [|fuel]; [done|]. unfold add_knowledge. rewrite infer_unfold.
  assert (Hd : direct_pass (add_sentence ai14_first (0, 1) 5)
               = (add_sentence ai14_first (0, 1) 5, false)) by (by vm_compute).
  assert (HK : knowledge (add_sentence ai14_first (0, 1) 5) = chain 1)
    by (by vm_compute).
  rewrite Hd. cbn [fst snd]. rewrite HK.
  destruct fuel as [|fuel]; [done|]. rewrite outer_loop_unfold.
  change (chain 1 !! 0%nat) with (Some (Sentence.mk ∅ 2)). cbv iota.
  destruct fuel as [|fuel]; [done|]. rewrite inner_loop_unfold.
  change (chain 1 !! 0%nat) with (Some (Sentence.mk ∅ 2)). cbv iota.
  rewrite decide_False by tauto.
  by rewrite inner_loop_chain_diverges.
Qed.

(** * Sequences of observations *)

Lemma observe_all_fuel_mono (f f' : nat) (obs : list (cell * Z)) :
  ∀ ai ai', (f ≤ f')%nat →
    observe_all f ai obs = Some ai' → observe_all f' ai obs = Some ai'.
Proof.
  induction obs as [|[c k] obs IH]; intros ai ai' Hle; [done|].
  cbn [observe_all]. unfold add_knowledge.
  destruct (infer f _) as [ai1|] eqn:Hinf; [|done].
  rewrite (infer_fuel_mono f f' _ _ Hle Hinf). by apply IH.
Qed.

Lemma add_knowledge_consistent g (fuel : nat) ai c ai' :
  consistent g ai → ¬ mine g c →
  add_knowledge fuel ai c (Minesweeper.nearby_mines g c) = Some ai' →
  consistent g ai'.
Proof.
  intros Hcons Hc Hrun.
  pose proof (add_sentence_sound g _ ai c (consistent_sound g ai Hcons) Hc) as Hs.
  by destruct (infer_sound g _ fuel _ ai' Hs Hrun).
Qed.

Lemma observe_all_consistent g (fuel : nat) (obs : list (cell * Z)) :
  ∀ ai ai', consistent g ai → Forall (answer_of g) obs →
    observe_all fuel ai obs = Some ai' → consistent g ai'.
Proof.
  induction obs as [|[c k] obs IH]; intros ai ai' Hcons Hobs.
  - by intros [= <-].
  - apply Forall_cons in Hobs as [[Hc Hk] Hobs]. cbn [fst snd] in Hc, Hk.
    subst k. cbn [observe_all].
    destruct (add_knowledge fuel ai c _) as [ai1|] eqn:Hrun; [|done].
    apply IH; [|done]. by eapply add_knowledge_consistent.
Qed.

Lemma observe_all_terminates g (obs : list (cell * Z)) :
  ∀ ai, consistent g ai → Forall (answer_of g) obs →
    ∃ fuel ai', observe_all fuel ai obs = Some ai'.
Proof.
  induction obs as [|[c k] obs IH]; intros ai Hcons Hobs.
  - by exists 0%nat, ai.
  - apply Forall_cons in Hobs as [[Hc Hk] Hobs]. cbn [fst snd] in Hc, Hk.
    subst k.
    assert (∃ f1 ai1,
      add_knowledge f1 ai c (Minesweeper.nearby_mines g c) = Some ai1)
      as (f1 & ai1 & Hrun).
    { unfold add_knowledge. eapply infer_terminates; [|done|done].
      exact (add_sentence_sound g _ ai c (consistent_sound g ai Hcons) Hc). }
    destruct (IH ai1) as (f2 & ai' & Hrest); [|done|].
    { by eapply add_knowledge_consistent. }
    exists (f1 + f2)%nat, ai'. cbn [observe_all].
    unfold add_knowledge in *.
    rewrite (infer_fuel_mono f1 (f1 + f2) _ _ ltac:(lia) Hrun).
    apply (observe_all_fuel_mono f2); [lia|done].
Qed.

Lemma consistent_init g :
  consistent g (init (Minesweeper.height g) (Minesweeper.width g)).
Proof.
  unfold consistent, init. cbn [height width safes mines moves_made knowledge].
  split_and!; try done.
Qed.

(** C5 (as amended).  Start from a fresh AI for the board [g] and make any
    finite sequence of calls [add_knowledge(c, k)] in which [c] holds no
    mine and [k] is the number of mines around [c] on [g].  The calls all
    return, and in the state reached no cell is both in [safes] and in
    [mines], and every cell of [moves_made] is in [safes]. *)
Theorem observations_keep_sets_apart (g : Minesweeper.t)
    (obs : list (cell * Z)) :
  Forall (answer_of g) obs →
  (∃ fuel ai',
     observe_all fuel (init (Minesweeper.height g) (Minesweeper.width g)) obs
     = Some ai') ∧
  (∀ fuel ai',
     observe_all fuel (init (Minesweeper.height g) (Minesweeper.width g)) obs
     = Some ai' →
     safes ai' ∩ mines ai' = ∅ ∧ moves_made ai' ⊆ safes ai').
Proof.
  intros Hobs. split.
  - apply (observe_all_terminates g); [apply consistent_init|done].
  - intros fuel ai' Hrun.
    destruct (observe_all_consistent g fuel obs _ ai' (consistent_init g) Hobs Hrun)
      as (_ & _ & Hs & Hm & Hmv & _).
    split; [|done]. apply set_eq. intros c. split; [|set_solver].
    intros [Hcs Hcm]%elem_of_intersection. exfalso.
    by apply (Hs c Hcs), Hm.
Qed.

Lemma observations_keep_sets_apart_witness :
  (∃ fuel ai',
     observe_all fuel (init (Minesweeper.height board23) (Minesweeper.width board23))
       [((0, 0), 1); ((0, 1), 2)] = Some ai') ∧
  (∀ fuel ai',
     observe_all fuel (init (Minesweeper.height board23) (Minesweeper.width board23))
       [((0, 0), 1); ((0, 1), 2)] = Some ai' →
     safes ai' ∩ mines ai' = ∅ ∧ moves_made ai' ⊆ safes ai').
Proof.
  apply (observations_keep_sets_apart board23 [((0, 0), 1); ((0, 1), 2)]).
  repeat apply Forall_cons_2; [| |apply Forall_nil_2];
    (split; [apply (bool_decide_unpack _); by vm_compute | by vm_compute]).
Defined.

(** C5 (as stated) fails.  On the board of one row and two columns with
    its mine at (0,1), [add_knowledge((0,0), 1)] marks (0,1) as a mine.
    The cell (0,1) has not been probed and no mine is next to it, so
    [add_knowledge((0,1), 0)] is a call on a not-previously-probed cell
    with the true count; it marks (0,1) safe, and (0,1) is then both in
    [safes] and in [mines]. *)
Lemma probing_a_mine_breaks_disjointness :
  Minesweeper.nearby_mines board12 (0, 0) = 1 ∧
  Minesweeper.nearby_mines board12 (0, 1) = 0 ∧
  add_knowledge 10 (init 1 2) (0, 0) 1 = Some ai12_mine_found ∧
  ((0, 1) ∉ moves_made ai12_mine_found) ∧
  add_knowledge 10 ai12_mine_found (0, 1) 0 = Some ai12_mine_probed ∧
  observe_all 10 (init (Minesweeper.height board12) (Minesweeper.width board12))
    [((0, 0), 1); ((0, 1), 0)] = Some ai12_mine_probed ∧
  (0, 1) ∈ safes ai12_mine_probed ∩ mines ai12_mine_probed ∧
  safes ai12_mine_probed ∩ mines ai12_mine_probed ≠ ∅.
Proof.
  split; [by vm_compute|]. split; [by vm_compute|].
  split; [by vm_compute|].
  split; [apply (bool_decide_unpack _); by vm_compute|].
  split; [by vm_compute|]. split; [by vm_compute|].
  assert (Hin : (0, 1) ∈ safes ai12_mine_probed ∩ mines ai12_mine_probed).
  { unfold ai12_mine_probed. cbn [safes mines]. set_solver. }
  split; [done|]. intros Heq. rewrite Heq in Hin. by apply not_elem_of_empty in Hin.
Qed.

(** * Marking a cell in a sentence *)

Lemma sentence_mark_safe_comm (c d : cell) (s : Sentence.t) :
  Sentence.mark_safe d (Sentence.mark_safe c s) =
  Sentence.mark_safe c (Sentence.mark_safe d s).
Proof.
  destruct (decide (c = d)) as [->|Hne]; [done|].
  destruct s as [X k]. unfold Sentence.mark_safe. cbn [Sentence.cells Sentence.count].
  destruct (decide (c ∈ X)) as [Hc|Hc], (decide (d ∈ X)) as [Hd|Hd];
    cbn [Sentence.cells Sentence.count].
  - rewrite !decide_True by set_solver. cbn [Sentence.cells Sentence.count].
    f_equal. apply set_eq. intros x. rewrite !elem_of_difference. tauto.
  - rewrite decide_False by set_solver. by rewrite decide_True by done.
  - rewrite decide_True by done. by rewrite decide_False by set_solver.
  - by rewrite !decide_False by done.
Qed.

Lemma sentence_mark_mine_comm (c d : cell) (s : Sentence.t) :
  Sentence.mark_mine d (Sentence.mark_mine c s) =
  Sentence.mark_mine c (Sentence.mark_mine d s).
Proof.
  destruct (decide (c = d)) as [->|Hne]; [done|].
  destruct s as [X k]. unfold Sentence.mark_mine. cbn [Sentence.cells Sentence.count].
  destruct (decide (c ∈ X)) as [Hc|Hc], (decide (d ∈ X)) as [Hd|Hd];
    cbn [Sentence.cells Sentence.count].
  - rewrite !decide_True by set_solver. cbn [Sentence.cells Sentence.count].
    f_equal. apply set_eq. intros x. rewrite !elem_of_difference. tauto.
  - rewrite decide_False by set_solver. by rewrite decide_True by done.
  - rewrite decide_True by done. by rewrite decide_False by set_solver.
  - by rewrite !decide_False by done.
Qed.


(** * The two marking loops do not depend on the order of the cells *)

Lemma mark_safe_comm (ai : MinesweeperAI.t) (c d : cell) :
  mark_safe (mark_safe ai c) d = mark_safe (mark_safe ai d) c.
Proof.
  unfold mark_safe. cbn [height width moves_made mines safes knowledge]. f_equal.
  - apply set_eq. intros x. rewrite !elem_of_union. tauto.
  - rewrite !map_map. apply map_ext. intros s. apply sentence_mark_safe_comm.
Qed.

Lemma mark_mine_comm (ai : MinesweeperAI.t) (c d : cell) :
  mark_mine (mark_mine ai c) d = mark_mine (mark_mine ai d) c.
Proof.
  unfold mark_mine. cbn [height width moves_made mines safes knowledge]. f_equal.
  - apply set_eq. intros x. rewrite !elem_of_union. tauto.
  - rewrite !map_map. apply map_ext. intros s. apply sentence_mark_mine_comm.
Qed.

Lemma mark_safes_loop_swap (st : MinesweeperAI.t * bool) (c d : cell) :
  mark_safes_loop st [c; d] = mark_safes_loop st [d; c].
Proof.
  destruct st as [ai b]. unfold mark_safes_loop. cbn [foldl fst snd].
  destruct (decide (c = d)) as [->|Hne]; [done|].
  assert (Hcd : ∀ x y : cell, x ≠ y → x ∈ safes (mark_safe ai y) ↔ x ∈ safes ai).
  { intros x y Hxy. unfold mark_safe. cbn [safes]. set_solver. }
  destruct (decide (c ∈ safes ai)) as [Hc|Hc], (decide (d ∈ safes ai)) as [Hd|Hd];
    cbn [fst snd].
  - by rewrite !decide_True by done.
  - rewrite (decide_False (P := d ∈ safes ai)) by done. cbn [fst snd].
    by rewrite decide_True by (by apply Hcd).
  - rewrite (decide_False (P := c ∈ safes ai)) by done. cbn [fst snd].
    by rewrite decide_True by (by apply Hcd).
  - rewrite (decide_False (P := d ∈ safes (mark_safe ai c))) by (by rewrite Hcd).
    rewrite (decide_False (P := c ∈ safes (mark_safe ai d))) by (by rewrite Hcd).
    f_equal. apply mark_safe_comm.
Qed.

Lemma mark_mines_loop_swap (st : MinesweeperAI.t * bool) (c d : cell) :
  mark_mines_loop st [c; d] = mark_mines_loop st [d; c].
Proof.
  destruct st as [ai b]. unfold mark_mines_loop. cbn [foldl fst snd].
  destruct (decide (c = d)) as [->|Hne]; [done|].
  assert (Hcd : ∀ x y : cell, x ≠ y → x ∈ mines (mark_mine ai y) ↔ x ∈ mines ai).
  { intros x y Hxy. unfold mark_mine. cbn [mines]. set_solver. }
  destruct (decide (c ∈ mines ai)) as [Hc|Hc], (decide (d ∈ mines ai)) as [Hd|Hd];
    cbn [fst snd].
  - by rewrite !decide_True by done.
  - rewrite (decide_False (P := d ∈ mines ai)) by done. cbn [fst snd].
    by rewrite decide_True by (by apply Hcd).
  - rewrite (decide_False (P := c ∈ mines ai)) by done. cbn [fst snd].
    by rewrite decide_True by (by apply Hcd).
  - rewrite (decide_False (P := d ∈ mines (mark_mine ai c))) by (by rewrite Hcd).
    rewrite (decide_False (P := c ∈ mines (mark_mine ai d))) by (by rewrite Hcd).
    f_equal. apply mark_mine_comm.
Qed.

(** X2.  The loops [for safe_cell in safe_cells.copy()] and
    [for mine_cell in mine_cells.copy()] walk over a set, in an order Python
    does not fix.  Whatever the order, they end in the same state with the
    same flag. *)
Theorem marking_loops_ignore_order (st : MinesweeperAI.t * bool)
    (cs cs' : list cell) :
  Permutation cs cs' →
  mark_safes_loop st cs = mark_safes_loop st cs' ∧
  mark_mines_loop st cs = mark_mines_loop st cs'.
Proof.
  intros Hperm. revert st.
  induction Hperm as [|c cs cs' _ IH|c d cs|cs1 cs2 cs3 _ IH1 _ IH2]; intros st.
  - done.
  - unfold mark_safes_loop, mark_mines_loop in *. cbn [foldl]. split; apply IH.
  - split.
    + change (mark_safes_loop (mark_safes_loop st [d; c]) cs =
              mark_safes_loop (mark_safes_loop st [c; d]) cs).
      by rewrite mark_safes_loop_swap.
    + change (mark_mines_loop (mark_mines_loop st [d; c]) cs =
              mark_mines_loop (mark_mines_loop st [c; d]) cs).
      by rewrite mark_mines_loop_swap.
  - split; (etrans; [apply IH1|apply IH2]).
Qed.

Lemma marking_loops_ignore_order_witness :
  mark_safes_loop (ai23_first, false) [(0, 1); (1, 1)] =
  mark_safes_loop (ai23_first, false) [(1, 1); (0, 1)] ∧
  mark_mines_loop (ai23_first, false) [(0, 1); (1, 1)] =
  mark_mines_loop (ai23_first, false) [(1, 1); (0, 1)].
Proof.
  apply (marking_loops_ignore_order (ai23_first, false)
           [(0, 1); (1, 1)] [(1, 1); (0, 1)]).
  apply perm_swap.
Defined.

(** * What every call keeps, whatever the counts *)

Lemma infer_frame (fuel : nat) (ai ai' : MinesweeperAI.t) :
  infer fuel ai = Some ai' →
  height ai' = height ai ∧ width ai' = width ai ∧
  moves_made ai' = moves_made ai ∧
  safes ai ⊆ safes ai' ∧ mines ai ⊆ mines ai'.
Proof.
  revert ai. induction fuel as [|fuel IH]; intros ai; [done|].
  rewrite infer_unfold.
  destruct (outer_loop fuel 0 _ _) as [[K stop]|] eqn:Hout; [|done].
  destruct (direct_pass_narrowed ai) as (Hh & Hw & Hmv & Hs & Hm & _).
  destruct stop.
  - intros (Hh' & Hw' & Hmv' & Hs' & Hm')%IH. cbn in *. split_and!; try congruence.
    + set_solver.
    + set_solver.
  - intros [= <-]. cbn. by split_and!.
Qed.

Lemma add_knowledge_frame (fuel : nat) (ai : MinesweeperAI.t) (c : cell) (k : Z)
    (ai' : MinesweeperAI.t) :
  add_knowledge fuel ai c k = Some ai' →
  height ai' = height ai ∧ width ai' = width ai ∧
  moves_made ai' = {[c]} ∪ moves_made ai ∧
  {[c]} ∪ safes ai ⊆ safes ai' ∧ mines ai ⊆ mines ai'.
Proof.
  unfold add_knowledge. intros (Hh & Hw & Hmv & Hs & Hm)%infer_frame.
  by split_and!.
Qed.

(** X3.  Across any sequence of calls of [add_knowledge], with any counts:
    the bounds stay as they are, [moves_made] gains exactly the probed
    cells, every probed cell is in [safes], and no cell ever leaves [safes]
    or [mines]. *)
Theorem observations_are_recorded (fuel : nat) (obs : list (cell * Z))
    (ai ai' : MinesweeperAI.t) :
  observe_all fuel ai obs = Some ai' →
  height ai' = height ai ∧ width ai' = width ai ∧
  moves_made ai' = list_to_set obs.*1 ∪ moves_made ai ∧
  list_to_set obs.*1 ∪ safes ai ⊆ safes ai' ∧
  mines ai ⊆ mines ai'.
Proof.
  revert ai. induction obs as [|[c k] obs IH]; intros ai.
  - intros [= <-]. cbn. split_and!; try done; set_solver.
  - cbn [observe_all].
    destruct (add_knowledge fuel ai c k) as [ai1|] eqn:Hrun; [|done].
    apply add_knowledge_frame in Hrun as (Hh & Hw & Hmv & Hs & Hm).
    intros (Hh' & Hw' & Hmv' & Hs' & Hm')%IH.
    cbn [fmap list_fmap fst list_to_set foldr].
    split_and!; try congruence.
    + rewrite Hmv', Hmv. set_solver.
    + set_solver.
    + set_solver.
Qed.

Lemma observations_are_recorded_witness :
  height ai23_second = height (init 2 3) ∧ width ai23_second = width (init 2 3) ∧
  moves_made ai23_second =
    list_to_set [((0, 0), 1); ((0, 1), 2)].*1 ∪ moves_made (init 2 3) ∧
  list_to_set [((0, 0), 1); ((0, 1), 2)].*1 ∪ safes (init 2 3) ⊆ safes ai23_second ∧
  mines (init 2 3) ⊆ mines ai23_second.
Proof.
  apply (observations_are_recorded 10 [((0, 0), 1); ((0, 1), 2)]).
  by vm_compute.
Defined.

(** * Sentences never mention a settled cell *)

Lemma clean_mark_safe (ai : MinesweeperAI.t) (c : cell) :
  clean ai → clean (mark_safe ai c).
Proof.
  intros Hclean s. unfold mark_safe. cbn [knowledge safes mines].
  intros (s0 & <- & Hs0)%list_elem_of_In%in_map_iff.
  apply list_elem_of_In, Hclean in Hs0.
  unfold Sentence.mark_safe. case_decide; cbn [Sentence.cells]; set_solver.
Qed.

Lemma clean_mark_mine (ai : MinesweeperAI.t) (c : cell) :
  clean ai → clean (mark_mine ai c).
Proof.
  intros Hclean s. unfold mark_mine. cbn [knowledge safes mines].
  intros (s0 & <- & Hs0)%list_elem_of_In%in_map_iff.
  apply list_elem_of_In, Hclean in Hs0.
  unfold Sentence.mark_mine. case_decide; cbn [Sentence.cells]; set_solver.
Qed.

Lemma clean_direct_pass (ai : MinesweeperAI.t) :
  clean ai → clean (direct_pass ai).1.
Proof.
  intros Hclean. apply (direct_pass_rule (λ ai' _, clean ai')); [| |done].
  - intros ai' _ c _ H _ _ _ _. by apply clean_mark_safe.
  - intros ai' _ c _ H _ _ _ _. by apply clean_mark_mine.
Qed.

Lemma clean_outer_loop (fuel i : nat) (ai : MinesweeperAI.t) stop K' stop' :
  clean ai → outer_loop fuel i (knowledge ai) stop = Some (K', stop') →
  clean (set_knowledge ai K').
Proof.
  intros Hclean Hout s Hs. cbn [set_knowledge knowledge safes mines] in *.
  assert (HK' : Forall (λ s, Sentence.cells s ## safes ai ∪ mines ai) K').
  { eapply (outer_loop_Forall (λ s, Sentence.cells s ## safes ai ∪ mines ai));
      [| |exact Hout].
    - intros s1 s2 _ H2 _. unfold sentence_based. cbn [Sentence.cells]. set_solver.
    - apply Forall_forall. intros s0 Hs0. by apply Hclean. }
  rewrite Forall_forall in HK'. by apply HK'.
Qed.

Lemma clean_infer (fuel : nat) (ai ai' : MinesweeperAI.t) :
  clean ai → infer fuel ai = Some ai' → clean ai'.
Proof.
  revert ai. induction fuel as [|fuel IH]; intros ai Hclean; [done|].
  rewrite infer_unfold.
  destruct (outer_loop fuel 0 _ _) as [[K stop]|] eqn:Hout; [|done].
  pose proof (clean_outer_loop _ _ _ _ _ _ (clean_direct_pass ai Hclean) Hout) as H2.
  destruct stop; [by apply IH|]. by intros [= <-].
Qed.

Lemma clean_add_sentence (ai : MinesweeperAI.t) (c : cell) (k : Z) :
  clean ai → clean (add_sentence ai c k).
Proof.
  intros Hclean s. unfold add_sentence. fold (probed ai c).
  cbn [set_knowledge knowledge safes mines].
  assert (Hp : clean (probed ai c)).
  { unfold probed. apply clean_mark_safe. intros s0 Hs0. by apply Hclean. }
  intros [Hs|Hs]%elem_of_app; [by apply Hp|].
  apply list_elem_of_singleton in Hs as ->.
  unfold new_sentence. fold (probed ai c).
  rewrite neighbour_loop_window, neighbour_step_fold.
  cbn [Sentence.cells fst snd]. intros n Hn Hn'.
  apply elem_of_union in Hn as [Hn|Hn]; [by apply not_elem_of_empty in Hn|].
  apply elem_of_list_to_set, list_elem_of_filter in Hn as [(_ & _ & ? & ?) _].
  set_solver.
Qed.

(** X4.  When no sentence mentions a cell of [safes] or [mines] before
    [add_knowledge] is called, none does when it returns, whatever the
    count: a settled cell is removed from every sentence and never enters a
    new one.  In particular the probed cell is in no sentence. *)
Theorem sentences_skip_settled_cells (fuel : nat) (ai : MinesweeperAI.t)
    (c : cell) (k : Z) (ai' : MinesweeperAI.t) :
  clean ai → add_knowledge fuel ai c k = Some ai' →
  clean ai' ∧ ∀ s, s ∈ knowledge ai' → c ∉ Sentence.cells s.
Proof.
  intros Hclean Hrun.
  assert (Hclean' : clean ai').
  { eapply clean_infer; [|exact Hrun]. by apply clean_add_sentence. }
  split; [done|]. intros s Hs Hc.
  apply add_knowledge_frame in Hrun as (_ & _ & _ & Hsafe & _).
  apply (Hclean' s Hs c Hc). set_solver.
Qed.

Lemma clean_init (h w : Z) : clean (init h w).
Proof. intros s Hs. by apply elem_of_nil in Hs. Qed.

Lemma sentences_skip_settled_cells_witness :
  clean ai23_first ∧ ∀ s, s ∈ knowledge ai23_first → (0, 0) ∉ Sentence.cells s.
Proof.
  apply (sentences_skip_settled_cells 10 (init 2 3) (0, 0) 1).
  - apply clean_init.
  - by vm_compute.
Defined.

(** * In the state returned, every direct conclusion has been drawn *)

Lemma mark_safes_loop_quiet (cs : list cell) :
  ∀ st, (mark_safes_loop st cs).2 = false →
        mark_safes_loop st cs = st ∧ ∀ c, c ∈ cs → c ∈ safes st.1.
Proof.
  unfold mark_safes_loop.
  induction cs as [|c cs IH]; intros st Hflag; cbn [foldl] in *.
  - split; [done|]. intros c Hc. by apply elem_of_nil in Hc.
  - destruct (decide (c ∈ safes st.1)) as [Hc|Hc].
    + destruct (IH st Hflag) as [Heq Hall]. split; [done|].
      intros c' [->|Hc']%elem_of_cons; [done|by apply Hall].
    + exfalso. destruct (IH _ Hflag) as [Heq _].
      rewrite Heq in Hflag. done.
Qed.

Lemma mark_mines_loop_quiet (cs : list cell) :
  ∀ st, (mark_mines_loop st cs).2 = false →
        mark_mines_loop st cs = st ∧ ∀ c, c ∈ cs → c ∈ mines st.1.
Proof.
  unfold mark_mines_loop.
  induction cs as [|c cs IH]; intros st Hflag; cbn [foldl] in *.
  - split; [done|]. intros c Hc. by apply elem_of_nil in Hc.
  - destruct (decide (c ∈ mines st.1)) as [Hc|Hc].
    + destruct (IH st Hflag) as [Heq Hall]. split; [done|].
      intros c' [->|Hc']%elem_of_cons; [done|by apply Hall].
    + exfalso. destruct (IH _ Hflag) as [Heq _].
      rewrite Heq in Hflag. done.
Qed.

Lemma known_safes_empty (s : Sentence.t) :
  Sentence.known_safes s = ∅ → Sentence.count s = 0 → Sentence.cells s = ∅.
Proof.
  unfold Sentence.known_safes. intros Hne Hz. by rewrite decide_True in Hne.
Qed.

Lemma known_mines_empty (s : Sentence.t) :
  Sentence.known_mines s = ∅ →
  Z.of_nat (size (Sentence.cells s)) = Sentence.count s → Sentence.cells s = ∅.
Proof.
  unfold Sentence.known_mines. intros Hne Hz. by rewrite decide_True in Hne.
Qed.

Lemma direct_step_quiet (st : MinesweeperAI.t * bool) (i : nat) :
  (direct_step st i).2 = false →
  direct_step st i = st ∧
  ∀ s, knowledge st.1 !! i = Some s →
    (Sentence.count s = 0 → Sentence.cells s ⊆ safes st.1) ∧
    (Z.of_nat (size (Sentence.cells s)) = Sentence.count s →
       Sentence.cells s ⊆ mines st.1).
Proof.
  unfold direct_step.
  destruct (knowledge st.1 !! i) as [s|] eqn:Hs; [|by intros _; split].
  set (st1 := if decide (Sentence.known_safes s ≠ ∅)
              then mark_safes_loop st (elements (Sentence.known_safes s))
              else st).
  intros Hflag.
  assert (Hflag1 : st1.2 = false).
  { destruct (knowledge st1.1 !! i) as [s'|]; [|done].
    case_decide; [|done].
    destruct (mark_mines_loop_quiet _ _ Hflag) as [Heq _]. by rewrite Heq in Hflag. }
  assert (Hsafe : st1 = st ∧ (Sentence.count s = 0 → Sentence.cells s ⊆ safes st.1)).
  { subst st1. case_decide as Hne.
    - destruct (mark_safes_loop_quiet _ _ Hflag1) as [Heq Hall]. split; [done|].
      intros Hz c Hc. apply Hall, elem_of_elements.
      unfold Sentence.known_safes. by rewrite decide_True.
    - split; [done|]. intros Hz. rewrite (known_safes_empty s Hne Hz). set_solver. }
  destruct Hsafe as [Heq Hsafe]. clearbody st1. subst st1. rewrite Hs in *.
  case_decide as Hne.
  - destruct (mark_mines_loop_quiet _ _ Hflag) as [Heq Hall]. split; [done|].
    intros ? [= <-]. split; [done|]. intros Hfull c Hc.
    apply Hall, elem_of_elements. unfold Sentence.known_mines. by rewrite decide_True.
  - split; [done|]. intros ? [= <-]. split; [done|]. intros Hfull.
    rewrite (known_mines_empty s Hne Hfull). set_solver.
Qed.

Lemma direct_steps_quiet (l : list nat) :
  ∀ st, (foldl direct_step st l).2 = false →
        foldl direct_step st l = st ∧ ∀ i, i ∈ l → direct_step st i = st.
Proof.
  induction l as [|i l IH]; intros st Hflag; cbn [foldl] in *.
  - split; [done|]. intros i Hi. by apply elem_of_nil in Hi.
  - destruct (IH _ Hflag) as [Heq Hall]. rewrite Heq in Hflag.
    destruct (direct_step_quiet st i Hflag) as [Hst _]. rewrite Hst in *.
    split; [done|]. intros j [->|Hj]%elem_of_cons; [done|by apply Hall].
Qed.

Lemma at_fixpoint_exhausted (fuel : nat) (ai : MinesweeperAI.t) :
  at_fixpoint fuel ai → exhausted ai.
Proof.
  intros [Hd _] s [i Hi]%list_elem_of_lookup_1.
  unfold direct_pass in Hd.
  destruct (direct_steps_quiet (seq 0 (length (knowledge ai))) (ai, false))
    as [_ Hall]; [by rewrite Hd|].
  assert (Hstep : direct_step (ai, false) i = (ai, false)).
  { apply Hall, list_elem_of_In, in_seq. apply lookup_lt_Some in Hi. lia. }
  destruct (direct_step_quiet (ai, false) i) as [_ Hex]; [by rewrite Hstep|].
  by apply Hex.
Qed.

(** X5.  In the state returned by [add_knowledge], whatever the counts, no
    direct conclusion is left to draw: the cells of every sentence with
    count 0 are in [safes], and the cells of every sentence whose count is
    its number of cells are in [mines]. *)
Theorem direct_conclusions_are_drawn (fuel : nat) (ai : MinesweeperAI.t)
    (c : cell) (k : Z) (ai' : MinesweeperAI.t) :
  add_knowledge fuel ai c k = Some ai' → exhausted ai'.
Proof.
  unfold add_knowledge. intros (fuel' & _ & Hfix)%infer_at_fixpoint.
  by eapply at_fixpoint_exhausted.
Qed.

Lemma direct_conclusions_are_drawn_witness : exhausted ai12_first.
Proof.
  apply (direct_conclusions_are_drawn 10 (init 1 2) (0, 0) 0). by vm_compute.
Defined.

(** * Inference from true observations is sound *)

Lemma make_safe_move_Some (ai : MinesweeperAI.t) (c : cell) :
  make_safe_move ai = Some c → c ∈ safes ai ∧ c ∉ moves_made ai.
Proof.
  unfold make_safe_move.
  destruct (filter _ (elements (safes ai))) as [|c' l] eqn:Hf; [done|].
  intros [= ->].
  assert (Hin : c ∈ filter (λ c, c ∉ moves_made ai) (elements (safes ai))).
  { rewrite Hf. apply list_elem_of_here. }
  apply list_elem_of_filter in Hin as [Hm Hs]. by apply elem_of_elements in Hs.
Qed.

(** X6.  Start in a state that agrees with the board [g] (a fresh AI does)
    and make calls [add_knowledge(c, k)] in which [c] holds no mine and [k]
    is the number of mines around [c].  In every state reached no cell of
    [safes] holds a mine, every cell of [mines] holds one, every sentence
    states the right number of mines, and the cell [make_safe_move]
    returns, if any, is a cell without mine that has not been probed. *)
Theorem inference_is_sound (g : Minesweeper.t) (fuel : nat)
    (obs : list (cell * Z)) (ai ai' : MinesweeperAI.t) :
  consistent g ai → Forall (answer_of g) obs →
  observe_all fuel ai obs = Some ai' →
  (∀ c, c ∈ safes ai' → ¬ mine g c) ∧
  (∀ c, c ∈ mines ai' → mine g c) ∧
  Forall (true_sentence g) (knowledge ai') ∧
  (∀ c, make_safe_move ai' = Some c → ¬ mine g c ∧ c ∉ moves_made ai').
Proof.
  intros Hcons Hobs Hrun.
  destruct (observe_all_consistent g fuel obs ai ai' Hcons Hobs Hrun)
    as (_ & _ & Hs & Hm & _ & HK).
  split_and!; try done.
  intros c [Hc Hnm]%make_safe_move_Some. split; [by apply Hs|done].
Qed.

Lemma inference_is_sound_witness :
  (∀ c, c ∈ safes ai23_second → ¬ mine board23 c) ∧
  (∀ c, c ∈ mines ai23_second → mine board23 c) ∧
  Forall (true_sentence board23) (knowledge ai23_second) ∧
  (∀ c, make_safe_move ai23_second = Some c →
        ¬ mine board23 c ∧ c ∉ moves_made ai23_second).
Proof.
  apply (inference_is_sound board23 10 [((0, 0), 1); ((0, 1), 2)] (init 2 3)).
  - apply (consistent_init board23).
  - repeat apply Forall_cons_2; [| |apply Forall_nil_2];
      (split; [apply (bool_decide_unpack _); by vm_compute | by vm_compute]).
  - by vm_compute.
Defined.

(** * The sentences left after true observations are undetermined *)

Lemma true_sentence_bounds g s :
  true_sentence g s →
  0 <= Sentence.count s <= Z.of_nat (size (Sentence.cells s)).
Proof.
  unfold true_sentence, mines_in. intros ->.
  assert (size (filter (mine g) (Sentence.cells s)) ≤ size (Sentence.cells s))%nat.
  { apply subseteq_size. set_solver. }
  lia.
Qed.

Lemma observe_all_exhausted (fuel : nat) (obs : list (cell * Z)) :
  ∀ ai ai', exhausted ai → observe_all fuel ai obs = Some ai' → exhausted ai'.
Proof.
  induction obs as [|[c k] obs IH]; intros ai ai' Hex.
  - by intros [= <-].
  - cbn [observe_all].
    destruct (add_knowledge fuel ai c k) as [ai1|] eqn:Hrun; [|done].
    apply IH. unfold add_knowledge in Hrun.
    apply infer_at_fixpoint in Hrun as (fuel' & _ & Hfix).
    by eapply at_fixpoint_exhausted.
Qed.

Lemma observe_all_clean (fuel : nat) (obs : list (cell * Z)) :
  ∀ ai ai', clean ai → observe_all fuel ai obs = Some ai' → clean ai'.
Proof.
  induction obs as [|[c k] obs IH]; intros ai ai' Hclean.
  - by intros [= <-].
  - cbn [observe_all].
    destruct (add_knowledge fuel ai c k) as [ai1|] eqn:Hrun; [|done].
    apply IH. eapply clean_infer; [|exact Hrun]. by apply clean_add_sentence.
Qed.

(** X7.  After any sequence of true observations on a fresh AI, every
    sentence satisfies [0 <= count <= |cells|], and a sentence that still
    has cells satisfies [0 < count < |cells|]: what is left in the
    knowledge is exactly what cannot be settled by a direct conclusion. *)
Theorem remaining_sentences_are_open (g : Minesweeper.t) (fuel : nat)
    (obs : list (cell * Z)) (ai' : MinesweeperAI.t) (s : Sentence.t) :
  Forall (answer_of g) obs →
  observe_all fuel (init (Minesweeper.height g) (Minesweeper.width g)) obs
  = Some ai' →
  s ∈ knowledge ai' →
  0 <= Sentence.count s <= Z.of_nat (size (Sentence.cells s)) ∧
  (Sentence.cells s ≠ ∅ →
   0 < Sentence.count s < Z.of_nat (size (Sentence.cells s))).
Proof.
  intros Hobs Hrun Hs.
  destruct (observe_all_consistent g fuel obs _ ai' (consistent_init g) Hobs Hrun)
    as (_ & _ & _ & _ & _ & HK).
  rewrite Forall_forall in HK.
  pose proof (true_sentence_bounds g s (HK s Hs)) as Hb. split; [done|].
  intros Hne.
  assert (Hclean : clean ai').
  { eapply observe_all_clean; [|exact Hrun]. apply clean_init. }
  assert (Hex : exhausted ai').
  { eapply observe_all_exhausted; [|exact Hrun].
    intros s0 Hs0. by apply elem_of_nil in Hs0. }
  destruct (Hex s Hs) as [Hzero Hfull]. specialize (Hclean s Hs).
  assert (Sentence.count s ≠ 0).
  { intros Hz. apply Hne. specialize (Hzero Hz). set_solver. }
  assert (Z.of_nat (size (Sentence.cells s)) ≠ Sentence.count s).
  { intros Hz. apply Hne. specialize (Hfull Hz). set_solver. }
  lia.
Qed.

Lemma remaining_sentences_are_open_witness :
  0 <= Sentence.count (Sentence.mk {[ (0, 2); (1, 2) ]} 1)
    <= Z.of_nat (size (Sentence.cells (Sentence.mk {[ (0, 2); (1, 2) ]} 1))) ∧
  (Sentence.cells (Sentence.mk {[ (0, 2); (1, 2) ]} 1) ≠ ∅ →
   0 < Sentence.count (Sentence.mk {[ (0, 2); (1, 2) ]} 1)
     < Z.of_nat (size (Sentence.cells (Sentence.mk {[ (0, 2); (1, 2) ]} 1)))).
Proof.
  apply (remaining_sentences_are_open board23 10 [((0, 0), 1); ((0, 1), 2)]
           ai23_second).
  - repeat apply Forall_cons_2; [| |apply Forall_nil_2];
      (split; [apply (bool_decide_unpack _); by vm_compute | by vm_compute]).
  - by vm_compute.
  - do 2 apply list_elem_of_further. apply list_elem_of_here.
Defined.

(** * The count of mines around a cell *)

Lemma elem_of_neighbours (c n : cell) : n ∈ neighbours c ↔ adjacent c n.
Proof.
  unfold neighbours, adjacent.
  rewrite elem_of_list_to_set, list_elem_of_filter, elem_of_window. tauto.
Qed.


Lemma nearby_mines_neighbours (g : Minesweeper.t) (c : cell) :
  Minesweeper.nearby_mines g c = mines_in g (neighbours c).
Proof.
  rewrite nearby_mines_window, nearby_step_fold, Z.add_0_l.
  unfold neighbours.
  rewrite mines_in_list_to_set by apply NoDup_filter, NoDup_window.
  f_equal. f_equal.
  rewrite (list_filter_filter (mine g) (λ n, n ≠ c)).
  apply list_filter_iff. intros n. tauto.
Qed.


(** * The random move *)






(** * The rest of class Minesweeper *)

Lemma py_index_nonneg {A : Type} (l : list A) (i : Z) :
  0 <= i < Z.of_nat (length l) → MinesweeperGame.py_index l i = l !! Z.to_nat i.
Proof.
  intros Hi. unfold MinesweeperGame.py_index, MinesweeperGame.py_pos. by rewrite decide_True.
Qed.

Lemma py_index_negative {A : Type} (l : list A) (i : Z) :
  - Z.of_nat (length l) <= i < 0 →
  MinesweeperGame.py_index l i = MinesweeperGame.py_index l (Z.of_nat (length l) + i).
Proof.
  intros Hi. unfold MinesweeperGame.py_index, MinesweeperGame.py_pos.
  rewrite (decide_False (P := 0 <= i < _)) by lia.
  rewrite (decide_True (P := - _ <= i < 0)) by lia.
  by rewrite (decide_True (P := 0 <= _ + i < _)) by lia.
Qed.

Lemma py_index_None {A : Type} (l : list A) (i : Z) :
  MinesweeperGame.py_index l i = None ↔
  ¬ (- Z.of_nat (length l) <= i < Z.of_nat (length l)).
Proof.
  unfold MinesweeperGame.py_index, MinesweeperGame.py_pos. repeat case_decide.
  - rewrite lookup_ge_None. lia.
  - rewrite lookup_ge_None. lia.
  - split; [lia|done].
Qed.

Lemma rectangular_row (g : Minesweeper.t) (i : Z) (row : list bool) :
  rectangular g → MinesweeperGame.py_index (Minesweeper.board g) i = Some row →
  length row = Z.to_nat (Minesweeper.width g).
Proof.
  intros [_ Hrows]. unfold MinesweeperGame.py_index. destruct (MinesweeperGame.py_pos _ i) as [n|]; [|done].
  intros Hn. rewrite Forall_forall in Hrows. apply Hrows.
  by eapply list_elem_of_lookup_2.
Qed.

(** X10.  [MinesweeperGame.is_mine] indexes the board as Python does.  On a board of
    [height] rows of [width] entries it answers for every cell inside the
    grid what [nearby_mines] reads there; a negative row or column down to
    [-height] or [-width] is counted from the end, without any error; and
    it raises exactly when the row is outside [-height, height) or the
    column outside [-width, width). *)
Theorem is_mine_indexing (g : Minesweeper.t) (c : cell) :
  rectangular g → 0 <= Minesweeper.height g → 0 <= Minesweeper.width g →
  (0 <= c.1 < Minesweeper.height g ∧ 0 <= c.2 < Minesweeper.width g →
     MinesweeperGame.is_mine g c = Some (Minesweeper.board_at g c.1 c.2)) ∧
  (- Minesweeper.height g <= c.1 < 0 →
     MinesweeperGame.is_mine g c = MinesweeperGame.is_mine g (c.1 + Minesweeper.height g, c.2)) ∧
  (- Minesweeper.width g <= c.2 < 0 →
     MinesweeperGame.is_mine g c = MinesweeperGame.is_mine g (c.1, c.2 + Minesweeper.width g)) ∧
  (MinesweeperGame.is_mine g c = None ↔
     ¬ (- Minesweeper.height g <= c.1 < Minesweeper.height g ∧
        - Minesweeper.width g <= c.2 < Minesweeper.width g)).
Proof.
  intros Hrect Hh Hw. pose proof Hrect as [Hlen Hrows].
  destruct c as [i j]. unfold MinesweeperGame.is_mine, MinesweeperGame.board_index. cbn [fst snd].
  assert (Hrow : ∀ i' row, MinesweeperGame.py_index (Minesweeper.board g) i' = Some row →
            Z.of_nat (length row) = Minesweeper.width g).
  { intros i' row Hr. rewrite (rectangular_row g i' row Hrect Hr). lia. }
  split_and!.
  - intros [Hi Hj]. unfold Minesweeper.board_at.
    rewrite py_index_nonneg by lia.
    destruct (Minesweeper.board g !! Z.to_nat i) as [row|] eqn:Hr.
    + assert (Hl : Z.of_nat (length row) = Minesweeper.width g).
      { apply (Hrow i). by rewrite py_index_nonneg by lia. }
      rewrite py_index_nonneg by lia.
      destruct (row !! Z.to_nat j) eqn:Hb; [done|].
      apply lookup_ge_None in Hb. lia.
    + apply lookup_ge_None in Hr. lia.
  - intros Hi. rewrite py_index_negative by lia.
    by replace (Z.of_nat (length (Minesweeper.board g)) + i)
      with (i + Minesweeper.height g) by lia.
  - intros Hj. destruct (MinesweeperGame.py_index (Minesweeper.board g) i) as [row|] eqn:Hr; [|done].
    specialize (Hrow i row Hr). rewrite py_index_negative by lia.
    by replace (Z.of_nat (length row) + j) with (j + Minesweeper.width g) by lia.
  - destruct (MinesweeperGame.py_index (Minesweeper.board g) i) as [row|] eqn:Hr.
    + specialize (Hrow i row Hr). rewrite py_index_None.
      assert (- Minesweeper.height g <= i < Minesweeper.height g).
      { destruct (decide (- Minesweeper.height g <= i < Minesweeper.height g));
          [done|].
        assert (MinesweeperGame.py_index (Minesweeper.board g) i = None) as Hn; [|congruence].
        apply py_index_None. lia. }
      lia.
    + apply py_index_None in Hr. split; [|done]. lia.
Qed.

Lemma rectangular_board23 : rectangular board23.
Proof. split; [done|]. repeat constructor. Qed.

Lemma is_mine_indexing_witness :
  (0 <= (-1, -1).1 < Minesweeper.height board23 ∧
   0 <= (-1, -1).2 < Minesweeper.width board23 →
     MinesweeperGame.is_mine board23 (-1, -1)
     = Some (Minesweeper.board_at board23 (-1, -1).1 (-1, -1).2)) ∧
  (- Minesweeper.height board23 <= (-1, -1).1 < 0 →
     MinesweeperGame.is_mine board23 (-1, -1)
     = MinesweeperGame.is_mine board23 ((-1, -1).1 + Minesweeper.height board23, (-1, -1).2)) ∧
  (- Minesweeper.width board23 <= (-1, -1).2 < 0 →
     MinesweeperGame.is_mine board23 (-1, -1)
     = MinesweeperGame.is_mine board23 ((-1, -1).1, (-1, -1).2 + Minesweeper.width board23)) ∧
  (MinesweeperGame.is_mine board23 (-1, -1) = None ↔
     ¬ (- Minesweeper.height board23 <= (-1, -1).1 < Minesweeper.height board23 ∧
        - Minesweeper.width board23 <= (-1, -1).2 < Minesweeper.width board23)).
Proof.
  apply (is_mine_indexing board23 (-1, -1)).
  - apply rectangular_board23.
  - by vm_compute.
  - by vm_compute.
Defined.

(** ** [__init__] *)

Lemma length_range (n : Z) : length (range n) = Z.to_nat n.
Proof. unfold range. by rewrite length_map, length_seq. Qed.

Lemma foldl_snoc_const {A B : Type} (x : A) (l : list B) :
  ∀ acc, foldl (λ acc _, acc ++ [x]) acc l = acc ++ replicate (length l) x.
Proof.
  induction l as [|b l IH]; intros acc; cbn [foldl length replicate].
  - by rewrite app_nil_r.
  - rewrite IH, <- app_assoc. done.
Qed.

Lemma new_board_replicate (height width : Z) :
  MinesweeperGame.new_board height width =
  replicate (Z.to_nat height) (replicate (Z.to_nat width) false).
Proof.
  unfold MinesweeperGame.new_board, MinesweeperGame.new_row. by rewrite !foldl_snoc_const, !length_range.
Qed.

Lemma agrees_new_board (height width : Z) :
  agrees height width (MinesweeperGame.new_board height width) ∅.
Proof.
  rewrite new_board_replicate. split; [split|]; cbn.
  - by rewrite length_replicate.
  - apply Forall_replicate. by rewrite length_replicate.
  - intros [i j]. split; [|by intros ?%not_elem_of_empty].
    intros [_ Hat]. exfalso. unfold Minesweeper.board_at in Hat. cbn in Hat.
    destruct (replicate _ _ !! Z.to_nat i) as [row|] eqn:Hr; [|done].
    apply lookup_replicate in Hr as [-> _].
    destruct (replicate _ _ !! Z.to_nat j) as [b|] eqn:Hb; [|done].
    apply lookup_replicate in Hb as [-> _]. done.
Qed.

Lemma place_mines_unfold (height width target : Z) (draws : list cell)
    (board : list (list bool)) (mines : gset cell) :
  MinesweeperGame.place_mines height width target draws board mines =
  if decide (Z.of_nat (size mines) = target) then MinesweeperGame.Returns (board, mines)
  else if decide (height <= 0 ∨ width <= 0) then MinesweeperGame.Raises
  else
    match draws with
    | [] => MinesweeperGame.Pending
    | (i, j) :: draws =>
      match MinesweeperGame.board_index board i j with
      | None => MinesweeperGame.Raises
      | Some true => MinesweeperGame.place_mines height width target draws board mines
      | Some false =>
        match MinesweeperGame.board_assign board i j with
        | Some board' =>
          MinesweeperGame.place_mines height width target draws board' ({[ (i, j) ]} ∪ mines)
        | None => MinesweeperGame.Raises
        end
      end
    end.
Proof. by destruct draws. Qed.

(** One draw on a board that agrees with [mines]. *)
Lemma agrees_draw (height width : Z) (board : list (list bool))
    (mines : gset cell) (i j : Z) :
  agrees height width board mines → in_range height width (i, j) →
  ∃ b, MinesweeperGame.board_index board i j = Some b ∧
       (b = true ↔ (i, j) ∈ mines) ∧
       ∃ board', MinesweeperGame.board_assign board i j = Some board' ∧
                 agrees height width board' ({[ (i, j) ]} ∪ mines).
Proof.
  intros [[Hlen Hrows] Hmines] [Hi Hj]. cbn [fst snd] in *.
  cbn [Minesweeper.board Minesweeper.height Minesweeper.width] in *.
  unfold MinesweeperGame.board_index, MinesweeperGame.board_assign.
  rewrite py_index_nonneg by lia.
  destruct (board !! Z.to_nat i) as [row|] eqn:Hr;
    [|apply lookup_ge_None in Hr; lia].
  assert (Hl : length row = Z.to_nat width).
  { rewrite Forall_forall in Hrows. apply Hrows. by eapply list_elem_of_lookup_2. }
  rewrite py_index_nonneg by lia.
  destruct (row !! Z.to_nat j) as [b|] eqn:Hb;
    [|apply lookup_ge_None in Hb; lia].
  exists b. split; [done|]. split.
  { rewrite <- Hmines. unfold mine, Minesweeper.board_at.
    cbn [fst snd Minesweeper.board Minesweeper.height Minesweeper.width].
    rewrite Hr, Hb. intuition lia. }
  unfold MinesweeperGame.py_assign, MinesweeperGame.py_pos.
  rewrite (decide_True (P := 0 <= j < _)) by lia.
  rewrite (decide_True (P := 0 <= i < _)) by lia.
  eexists. split; [done|]. split; [split|].
  - cbn. by rewrite length_insert.
  - cbn. apply Forall_insert; [done|]. by rewrite length_insert.
  - intros [i' j']. rewrite elem_of_union, elem_of_singleton, <- Hmines.
    unfold mine, Minesweeper.board_at.
    cbn [fst snd Minesweeper.board Minesweeper.height Minesweeper.width].
    destruct (decide (Z.to_nat i' = Z.to_nat i)) as [Hii|Hii].
    + rewrite Hii, list_lookup_insert_eq by (apply lookup_lt_Some in Hr; lia).
      rewrite Hr.
      destruct (decide (Z.to_nat j' = Z.to_nat j)) as [Hjj|Hjj].
      * rewrite Hjj, list_lookup_insert_eq by lia. rewrite Hb.
        split.
        -- intros [[? ?] _]. left. f_equal; lia.
        -- intros [[= -> ->]|H]; [split; [lia|done]|].
           destruct H as [? ->]. split; [lia|done].
      * rewrite list_lookup_insert_ne by done.
        split; [by right|]. intros [[= -> ->]|H]; [done|done].
    + rewrite list_lookup_insert_ne by done.
      split; [by right|]. intros [[= -> ->]|H]; [done|done].
Qed.

Lemma place_mines_returns (height width target : Z) (draws : list cell) :
  Forall (in_range height width) draws →
  ∀ board mines board' mines',
    agrees height width board mines →
    MinesweeperGame.place_mines height width target draws board mines = MinesweeperGame.Returns (board', mines') →
    agrees height width board' mines' ∧ Z.of_nat (size mines') = target.
Proof.
  induction draws as [|[i j] draws IH]; intros Hdraws board mines board' mines' Hag;
    rewrite place_mines_unfold.
  - repeat case_decide; try done. by intros [= <- <-].
  - apply Forall_cons in Hdraws as [Hij Hdraws].
    repeat case_decide; try done; [by intros [= <- <-]|].
    destruct (agrees_draw _ _ _ _ i j Hag Hij) as (b & -> & _ & b' & -> & Hag').
    destruct b; by apply IH.
Qed.

Lemma place_mines_not_raises (height width target : Z) (draws : list cell) :
  0 < height → 0 < width → Forall (in_range height width) draws →
  ∀ board mines,
    agrees height width board mines →
    MinesweeperGame.place_mines height width target draws board mines ≠ MinesweeperGame.Raises.
Proof.
  intros Hh Hw.
  induction draws as [|[i j] draws IH]; intros Hdraws board mines Hag;
    rewrite place_mines_unfold.
  - repeat case_decide; try done. lia.
  - apply Forall_cons in Hdraws as [Hij Hdraws].
    repeat case_decide; try done; [lia|].
    destruct (agrees_draw _ _ _ _ i j Hag Hij) as (b & -> & _ & b' & -> & Hag').
    destruct b; by apply IH.
Qed.

Lemma size_list_to_set_le (l : list cell) :
  (size (list_to_set l : gset cell) ≤ length l)%nat.
Proof.
  induction l as [|x l IH]; cbn [list_to_set length].
  - by rewrite size_empty.
  - pose proof (size_union_alt ({[x]} : gset cell) (list_to_set l)) as Hsz.
    assert (size (list_to_set l ∖ {[x]} : gset cell) ≤ size (list_to_set l : gset cell))%nat.
    { apply subseteq_size. set_solver. }
    rewrite Hsz, size_singleton. lia.
Qed.

Lemma agrees_size (height width : Z) (board : list (list bool)) (mines : gset cell) :
  agrees height width board mines →
  (size mines ≤ Z.to_nat height * Z.to_nat width)%nat.
Proof.
  intros [_ Hmines].
  assert (Hsub : mines ⊆ list_to_set (list_prod (range height) (range width))).
  { intros [i j] Hc. apply Hmines in Hc as [[Hi Hj] _]. cbn in Hi, Hj.
    apply elem_of_list_to_set, list_elem_of_In, in_prod_iff.
    split; apply list_elem_of_In, elem_of_range; lia. }
  apply subseteq_size in Hsub.
  pose proof (size_list_to_set_le (list_prod (range height) (range width))) as Hle.
  unfold cell in *. rewrite length_prod, !length_range in Hle. lia.
Qed.

(** X11.  When [__init__] returns, with draws that [randrange] can give:
    the game has the bounds asked for and a board of [height] rows of
    [width] entries; the entries that are [True] are exactly the cells of
    [mines], all of them inside the grid; there are exactly [mines] of
    them, which is only possible for [0 <= mines <= height * width];
    [mines_found] is empty, so the game counts as won from the start
    exactly when it has no mine. *)
Theorem init_places_the_mines (height width target : Z) (draws : list cell)
    (g : MinesweeperGame.t) :
  Forall (in_range height width) draws →
  MinesweeperGame.init height width target draws = MinesweeperGame.Returns g →
  Minesweeper.height (MinesweeperGame.base g) = height ∧
  Minesweeper.width (MinesweeperGame.base g) = width ∧
  rectangular (MinesweeperGame.base g) ∧
  (∀ c, mine (MinesweeperGame.base g) c ↔ c ∈ MinesweeperGame.mines g) ∧
  Z.of_nat (size (MinesweeperGame.mines g)) = target ∧
  0 <= target <= Z.of_nat (Z.to_nat height * Z.to_nat width) ∧
  MinesweeperGame.mines_found g = ∅ ∧
  (MinesweeperGame.won g = true ↔ target = 0).
Proof.
  intros Hdraws. unfold MinesweeperGame.init.
  destruct (MinesweeperGame.place_mines _ _ _ _ _ _) as [[board mines]| |] eqn:Hp;
    [|done|done].
  intros [= <-]. cbn [MinesweeperGame.base MinesweeperGame.mines
                      MinesweeperGame.mines_found Minesweeper.height
                      Minesweeper.width].
  destruct (place_mines_returns _ _ _ _ Hdraws _ _ _ _
              (agrees_new_board height width) Hp) as [Hag Hsize].
  pose proof (agrees_size _ _ _ _ Hag) as Hle.
  destruct Hag as [Hrect Hmines].
  split_and!; try done; try lia.
  unfold MinesweeperGame.won.
  cbn [MinesweeperGame.mines MinesweeperGame.mines_found].
  rewrite bool_decide_eq_true. split.
  - intros <-. by rewrite size_empty in Hsize.
  - intros ->. symmetry. apply leibniz_equiv, size_empty_iff. lia.
Qed.

Lemma init_places_the_mines_witness :
  Minesweeper.height (MinesweeperGame.base
    (MinesweeperGame.mk board23 {[ (1, 0); (1, 2) ]} ∅)) = 2 ∧
  Minesweeper.width (MinesweeperGame.base
    (MinesweeperGame.mk board23 {[ (1, 0); (1, 2) ]} ∅)) = 3 ∧
  rectangular (MinesweeperGame.base
    (MinesweeperGame.mk board23 {[ (1, 0); (1, 2) ]} ∅)) ∧
  (∀ c, mine (MinesweeperGame.base
               (MinesweeperGame.mk board23 {[ (1, 0); (1, 2) ]} ∅)) c ↔
        c ∈ MinesweeperGame.mines
              (MinesweeperGame.mk board23 {[ (1, 0); (1, 2) ]} ∅)) ∧
  Z.of_nat (size (MinesweeperGame.mines
    (MinesweeperGame.mk board23 {[ (1, 0); (1, 2) ]} ∅))) = 2 ∧
  0 <= 2 <= Z.of_nat (Z.to_nat 2 * Z.to_nat 3) ∧
  MinesweeperGame.mines_found
    (MinesweeperGame.mk board23 {[ (1, 0); (1, 2) ]} ∅) = ∅ ∧
  (MinesweeperGame.won
     (MinesweeperGame.mk board23 {[ (1, 0); (1, 2) ]} ∅) = true ↔ 2 = 0).
Proof.
  apply (init_places_the_mines 2 3 2 [(1, 2); (1, 2); (1, 0); (0, 0)]).
  - repeat apply Forall_cons_2; [| | | |apply Forall_nil_2];
      (unfold in_range; cbn; lia).
  - by vm_compute.
Defined.

(** X12.  The edges of [__init__].  With no mine asked for it returns at
    once, whatever the bounds.  With some mines asked for and a bound that
    is not positive, [randrange] raises.  On a grid with positive bounds,
    asked for a negative number of mines or for more mines than cells, the
    loop never ends: whatever [randrange] gives, it neither returns nor
    raises. *)
Theorem init_edge_cases (height width target : Z) (draws : list cell) :
  (target = 0 →
     MinesweeperGame.init height width target draws =
     MinesweeperGame.Returns
       (MinesweeperGame.mk
          (Minesweeper.mk height width (MinesweeperGame.new_board height width))
          ∅ ∅)) ∧
  (target ≠ 0 → height <= 0 ∨ width <= 0 →
     MinesweeperGame.init height width target draws = MinesweeperGame.Raises) ∧
  (0 < height → 0 < width → target < 0 ∨ height * width < target →
     Forall (in_range height width) draws →
     MinesweeperGame.init height width target draws = MinesweeperGame.Pending).
Proof.
  unfold MinesweeperGame.init. split_and!.
  - intros ->. rewrite place_mines_unfold, size_empty. by rewrite decide_True.
  - intros Hne Hdim. rewrite place_mines_unfold, size_empty.
    rewrite decide_False by (intros H; apply Hne; rewrite <- H; done).
    by rewrite decide_True.
  - intros Hh Hw Htarget Hdraws.
    destruct (MinesweeperGame.place_mines _ _ _ _ _ _) as [[board mines]| |] eqn:Hp;
      [| |done].
    + exfalso.
      destruct (place_mines_returns _ _ _ _ Hdraws _ _ _ _
                  (agrees_new_board height width) Hp) as [Hag Hsize].
      pose proof (agrees_size _ _ _ _ Hag) as Hle. nia.
    + exfalso.
      by apply (place_mines_not_raises height width target draws Hh Hw Hdraws
                  _ _ (agrees_new_board height width)).
Qed.

(** ** [print] *)

Lemma string_app_cons (c : ascii) (s1 s2 : string) :
  String c s1 +:+ s2 = String c (s1 +:+ s2).
Proof. reflexivity. Qed.

Lemma string_app_assoc (s1 s2 s3 : string) :
  (s1 +:+ s2) +:+ s3 = s1 +:+ (s2 +:+ s3).
Proof.
  induction s1 as [|c s1 IH]; [done|]. by rewrite !string_app_cons, IH.
Qed.

Lemma string_app_nil_r (s : string) : s +:+ "" = s.
Proof.
  induction s as [|c s IH]; [done|]. by rewrite string_app_cons, IH.
Qed.

Lemma read_row_cell (b : bool) (s : string) :
  read_row ((if b then "|X" else "| ") +:+ s) = b :: read_row s.
Proof. by destruct b. Qed.

Lemma read_show_row (row : list bool) : read_row (show_row row) = row.
Proof.
  induction row as [|b row IH]; [done|].
  unfold show_row in *. cbn [foldr]. by rewrite read_row_cell, IH.
Qed.

Lemma read_rows_shown (rule : string) (rows : list (list bool)) :
  read_rows (concat (map (λ row, [rule; show_row row]) rows) ++ [rule]) = rows.
Proof.
  induction rows as [|row rows IH]; [done|].
  cbn [map concat app read_rows]. by rewrite read_show_row, IH.
Qed.

(** The loop over [j] from column [k] on writes the rest of the row. *)
Lemma print_cells_from (g : Minesweeper.t) (i : Z) (row : list bool) :
  MinesweeperGame.py_index (Minesweeper.board g) i = Some row →
  ∀ rest k o, drop k row = rest →
    foldl (λ o j,
             match o with
             | None => None
             | Some o =>
               match MinesweeperGame.board_index (Minesweeper.board g) i j with
               | Some true => Some (MinesweeperPrint.print_part o "|X")
               | Some false => Some (MinesweeperPrint.print_part o "| ")
               | None => None
               end
             end)
          (Some o) (map Z.of_nat (seq k (length rest)))
    = Some (MinesweeperPrint.mk_stdout
              (MinesweeperPrint.lines o)
              (MinesweeperPrint.partial o +:+
               foldr (λ (b : bool) s, (if b then "|X" else "| ") +:+ s) "" rest)).
Proof.
  intros Hrow. induction rest as [|b rest IH]; intros k o Hdrop.
  - cbn. rewrite string_app_nil_r. by destruct o.
  - cbn [length seq map foldl foldr].
    assert (Hk : row !! k = Some b).
    { rewrite <- (Nat.add_0_r k), <- lookup_drop, Hdrop. done. }
    assert (Hidx : MinesweeperGame.board_index (Minesweeper.board g) i (Z.of_nat k)
                   = Some b).
    { unfold MinesweeperGame.board_index. rewrite Hrow.
      rewrite py_index_nonneg; [by rewrite Nat2Z.id|].
      apply lookup_lt_Some in Hk. lia. }
    rewrite Hidx.
    assert (Hdrop' : drop (S k) row = rest).
    { rewrite (drop_S row b k Hk) in Hdrop. by injection Hdrop. }
    destruct b; rewrite (IH (S k) _ Hdrop');
      unfold MinesweeperPrint.print_part; cbn [MinesweeperPrint.lines
        MinesweeperPrint.partial]; by rewrite string_app_assoc.
Qed.

Lemma show_row_cells (row : list bool) :
  show_row row =
  foldr (λ (b : bool) s, (if b then "|X" else "| ") +:+ s) "" row +:+ "|".
Proof.
  unfold show_row. induction row as [|b row IH]; [done|].
  cbn [foldr]. by rewrite IH, string_app_assoc.
Qed.

Lemma print_cells_row (g : Minesweeper.t) (i : Z) (o : MinesweeperPrint.stdout)
    (row : list bool) :
  MinesweeperGame.py_index (Minesweeper.board g) i = Some row →
  length row = Z.to_nat (Minesweeper.width g) →
  MinesweeperPrint.print_cells g i o =
  Some (MinesweeperPrint.mk_stdout
          (MinesweeperPrint.lines o)
          (MinesweeperPrint.partial o +:+
           foldr (λ (b : bool) s, (if b then "|X" else "| ") +:+ s) "" row)).
Proof.
  intros Hrow Hlen. unfold MinesweeperPrint.print_cells, range.
  rewrite <- Hlen. by apply (print_cells_from g i row Hrow row 0%nat o).
Qed.

(** The loop over [i] from row [k] on writes a rule and a line for each of
    the remaining rows. *)
Lemma print_rows_from (g : Minesweeper.t) (rule : string) :
  rectangular g →
  ∀ rest k ls, drop k (Minesweeper.board g) = rest →
    foldl (λ o i,
             match o with
             | None => None
             | Some o =>
               match MinesweeperPrint.print_cells g i
                       (MinesweeperPrint.print_line o rule) with
               | Some o => Some (MinesweeperPrint.print_line o "|")
               | None => None
               end
             end)
          (Some (MinesweeperPrint.mk_stdout ls ""))
          (map Z.of_nat (seq k (length rest)))
    = Some (MinesweeperPrint.mk_stdout
              (ls ++ concat (map (λ row, [rule; show_row row]) rest)) "").
Proof.
  intros [_ Hrows]. induction rest as [|row rest IH]; intros k ls Hdrop.
  - cbn. by rewrite app_nil_r.
  - cbn [length seq map foldl concat].
    assert (Hk : Minesweeper.board g !! k = Some row).
    { rewrite <- (Nat.add_0_r k), <- lookup_drop, Hdrop. done. }
    assert (Hidx : MinesweeperGame.py_index (Minesweeper.board g) (Z.of_nat k)
                   = Some row).
    { rewrite py_index_nonneg; [by rewrite Nat2Z.id|].
      apply lookup_lt_Some in Hk. lia. }
    assert (Hlen : length row = Z.to_nat (Minesweeper.width g)).
    { rewrite Forall_forall in Hrows. apply Hrows.
      by eapply list_elem_of_lookup_2. }
    rewrite (print_cells_row g _ _ row Hidx Hlen).
    unfold MinesweeperPrint.print_line.
    cbn [MinesweeperPrint.lines MinesweeperPrint.partial].
    assert (Hdrop' : drop (S k) (Minesweeper.board g) = rest).
    { rewrite (drop_S _ row k Hk) in Hdrop. by injection Hdrop. }
    rewrite (IH (S k) _ Hdrop'). f_equal. f_equal.
    rewrite show_row_cells. cbn [String.append].
    by rewrite <- !app_assoc.
Qed.

(** X13.  On a board of [height] rows of [width] entries, [print] raises
    nothing and writes [2 * height + 1] complete lines: a rule of dashes,
    then for every row, in order, the line of the row followed by a rule.
    The line of a row shows ["|X"] for a mine and ["| "] for no mine and
    ends with ["|"], so the board can be read back from the text. *)
Theorem print_shows_the_board (g : Minesweeper.t) :
  rectangular g →
  ∃ o, MinesweeperPrint.print g = Some o ∧
       MinesweeperPrint.partial o = "" ∧
       MinesweeperPrint.lines o =
         concat (map (λ row,
                        [MinesweeperPrint.str_times "--" (Minesweeper.width g)
                           +:+ "-";
                         show_row row])
                     (Minesweeper.board g))
         ++ [MinesweeperPrint.str_times "--" (Minesweeper.width g) +:+ "-"] ∧
       length (MinesweeperPrint.lines o)
         = (2 * Z.to_nat (Minesweeper.height g) + 1)%nat ∧
       read_rows (MinesweeperPrint.lines o) = Minesweeper.board g.
Proof.
  intros Hrect. pose proof Hrect as [Hlen _].
  unfold MinesweeperPrint.print, range. rewrite <- Hlen.
  rewrite (print_rows_from g _ Hrect (Minesweeper.board g) 0%nat [] eq_refl).
  eexists. split; [done|]. unfold MinesweeperPrint.print_line.
  cbn [MinesweeperPrint.lines MinesweeperPrint.partial app String.append].
  split; [done|]. split; [done|]. split.
  - rewrite length_app. cbn [length].
    assert (Hc : ∀ (rule : string) (rows : list (list bool)),
              length (concat (map (λ row, [rule; show_row row]) rows))
              = (2 * length rows)%nat).
    { intros rule rows. induction rows as [|r rows IH]; [done|].
      cbn [map concat app length]. rewrite IH. lia. }
    rewrite Hc. lia.
  - apply read_rows_shown.
Qed.

Lemma print_shows_the_board_witness :
  ∃ o, MinesweeperPrint.print board23 = Some o ∧
       MinesweeperPrint.partial o = "" ∧
       MinesweeperPrint.lines o =
         concat (map (λ row,
                        [MinesweeperPrint.str_times "--" (Minesweeper.width board23)
                           +:+ "-";
                         show_row row])
                     (Minesweeper.board board23))
         ++ [MinesweeperPrint.str_times "--" (Minesweeper.width board23) +:+ "-"] ∧
       length (MinesweeperPrint.lines o)
         = (2 * Z.to_nat (Minesweeper.height board23) + 1)%nat ∧
       read_rows (MinesweeperPrint.lines o) = Minesweeper.board board23.
Proof. apply (print_shows_the_board board23), rectangular_board23. Defined.

(** What [print] writes for the board of two rows and three columns with
    mines at (1,0) and (1,2). *)
Lemma print_board23 :
  MinesweeperPrint.print board23 =
  Some (MinesweeperPrint.mk_stdout
          ["-------"; "| | | |"; "-------"; "|X| |X|"; "-------"] "").
Proof. by vm_compute. Qed.

(** * An observation that settles its neighbours *)

Lemma covered_mark_safe N i ai c : covered N i ai → covered N i (mark_safe ai c).
Proof.
  intros (s & Hs & Hsub & Hcov). exists (Sentence.mark_safe c s).
  unfold mark_safe. cbn [knowledge safes mines].
  change (map ?f ?l) with (f <$> l). rewrite list_lookup_fmap, Hs.
  split; [done|]. pose proof (mark_safe_cells c s). split; [set_solver|].
  intros n Hn. specialize (Hcov n Hn). unfold Sentence.mark_safe.
  case_decide; cbn [Sentence.cells]; [|set_solver].
  destruct (decide (n = c)); set_solver.
Qed.

Lemma covered_mark_mine N i ai c : covered N i ai → covered N i (mark_mine ai c).
Proof.
  intros (s & Hs & Hsub & Hcov). exists (Sentence.mark_mine c s).
  unfold mark_mine. cbn [knowledge safes mines].
  change (map ?f ?l) with (f <$> l). rewrite list_lookup_fmap, Hs.
  split; [done|]. pose proof (mark_mine_cells c s). split; [set_solver|].
  intros n Hn. specialize (Hcov n Hn). unfold Sentence.mark_mine.
  case_decide; cbn [Sentence.cells]; [|set_solver].
  destruct (decide (n = c)); set_solver.
Qed.

Lemma covered_infer N i (fuel : nat) (ai ai' : MinesweeperAI.t) :
  covered N i ai → infer fuel ai = Some ai' → covered N i ai'.
Proof.
  revert ai. induction fuel as [|fuel IH]; intros ai Hcov; [done|].
  rewrite infer_unfold.
  destruct (outer_loop fuel 0 _ _) as [[K stop]|] eqn:Hout; [|done].
  assert (H1 : covered N i (direct_pass ai).1).
  { apply (direct_pass_rule (λ ai' _, covered N i ai')); [| |done].
    - intros ai1 _ c _ H _ _ _ _. by apply covered_mark_safe.
    - intros ai1 _ c _ H _ _ _ _. by apply covered_mark_mine. }
  assert (H2 : covered N i (set_knowledge (direct_pass ai).1 K)).
  { destruct H1 as (s & Hs & Hsub & Hc).
    destruct (outer_loop_appends _ _ _ _ _ _ Hout) as (added & -> & _).
    exists s. cbn [set_knowledge knowledge safes mines].
    split; [|done]. by apply lookup_app_l_Some. }
  destruct stop; [by apply IH|]. by intros [= <-].
Qed.

Lemma covered_add_sentence (ai : MinesweeperAI.t) (c : cell) (k : Z) :
  covered (Sentence.cells (new_sentence ai c k)) (length (knowledge ai))
          (add_sentence ai c k).
Proof.
  exists (new_sentence ai c k). unfold add_sentence, mark_safe.
  cbn [set_knowledge knowledge safes mines].
  split; [|set_solver].
  apply list_lookup_middle. by rewrite length_map.
Qed.

Lemma make_safe_move_None (ai : MinesweeperAI.t) :
  make_safe_move ai = None → safes ai ⊆ moves_made ai.
Proof.
  unfold make_safe_move. intros Hnone c Hc.
  destruct (decide (c ∈ moves_made ai)) as [|Hm]; [done|]. exfalso.
  assert (Hin : c ∈ filter (λ c, c ∉ moves_made ai) (elements (safes ai))).
  { apply list_elem_of_filter. split; [done|]. by apply elem_of_elements. }
  destruct (filter _ (elements (safes ai))); [|done].
  by apply elem_of_nil in Hin.
Qed.

(** X14.  A true observation of a cell without mine, made in a state that
    agrees with the board.  If no mine is around the cell, every cell
    around it that lies in the grid is in [safes] when [add_knowledge]
    returns, and [make_safe_move] then finds a move as soon as one of them
    has not been probed.  If the mines not yet known around the cell are as
    many as the cells around it that were still unknown, all of those are
    in [mines]. *)
Theorem observation_settles_neighbours (g : Minesweeper.t) (fuel : nat)
    (ai : MinesweeperAI.t) (c : cell) (ai' : MinesweeperAI.t) :
  consistent g ai → ¬ mine g c →
  add_knowledge fuel ai c (Minesweeper.nearby_mines g c) = Some ai' →
  (Minesweeper.nearby_mines g c = 0 →
     (∀ n, adjacent c n → in_bounds ai n → n ∈ safes ai') ∧
     ((∃ n, adjacent c n ∧ in_bounds ai n ∧ n ∉ moves_made ai') →
      make_safe_move ai' ≠ None)) ∧
  (Sentence.count (new_sentence ai c (Minesweeper.nearby_mines g c)) =
     Z.of_nat (size (Sentence.cells
                       (new_sentence ai c (Minesweeper.nearby_mines g c)))) →
     Sentence.cells (new_sentence ai c (Minesweeper.nearby_mines g c))
       ⊆ mines ai').
Proof.
  intros Hcons Hc Hrun.
  set (k := Minesweeper.nearby_mines g c) in *.
  set (N := Sentence.cells (new_sentence ai c k)).
  pose proof (new_sentence_true g ai c Hcons Hc) as Htrue. fold k in Htrue.
  pose proof (add_knowledge_consistent g fuel ai c ai' Hcons Hc Hrun)
    as (_ & _ & Hs' & Hm' & _ & HK').
  pose proof (add_knowledge_frame fuel ai c k ai' Hrun)
    as (_ & _ & _ & Hsafes & Hmines).
  assert (Hcov : covered N (length (knowledge ai)) ai').
  { eapply covered_infer; [|exact Hrun]. apply covered_add_sentence. }
  destruct Hcov as (s & Hs & Hsub & Hcov).
  assert (Hin : s ∈ knowledge ai') by (by eapply list_elem_of_lookup_2).
  assert (Hstrue : true_sentence g s).
  { rewrite Forall_forall in HK'. by apply HK'. }
  assert (Hex : exhausted ai').
  { unfold add_knowledge in Hrun.
    apply infer_at_fixpoint in Hrun as (fuel' & _ & Hfix).
    by eapply at_fixpoint_exhausted. }
  destruct (Hex s Hin) as [Hzero Hfull].
  split.
  - intros Hk.
    assert (Hnone : ∀ n, adjacent c n → in_bounds ai n → ¬ mine g n).
    { intros n Hadj Hb Hmine.
      pose proof (nearby_mines_neighbours g c) as Heq.
      fold k in Heq. rewrite Hk in Heq. symmetry in Heq.
      apply (mines_in_zero g _ n Heq); [|done]. by apply elem_of_neighbours. }
    assert (Hopen : ∀ n, adjacent c n → in_bounds ai n → n ∈ safes ai').
    { intros n Hadj Hb.
      destruct (decide (n ∈ N)) as [HnN|HnN].
      - specialize (Hcov n HnN).
        apply elem_of_union in Hcov as [[Hcs|Hsf]%elem_of_union|Hmn]; [|done|].
        + apply Hzero; [|done]. rewrite Hstrue. unfold mines_in.
          assert (Hf : filter (mine g) (Sentence.cells s) = ∅); [|by rewrite Hf].
          apply set_eq. intros x. rewrite elem_of_filter. split; [|set_solver].
          intros [Hx Hxs]. exfalso. apply Hsub in Hxs.
          unfold N, new_sentence in Hxs. fold (probed ai c) in Hxs.
          rewrite neighbour_loop_window, neighbour_step_fold in Hxs.
          cbn [Sentence.cells fst] in Hxs.
          apply elem_of_union in Hxs as [Hxs|Hxs]; [set_solver|].
          apply elem_of_list_to_set, list_elem_of_filter in Hxs
            as [((Hne & Hbx) & _) Hwin].
          apply (Hnone x); [|done|done].
          split; [done|]. by apply elem_of_window.
        + exfalso. by apply (Hnone n Hadj Hb), Hm'.
      - unfold N, new_sentence in HnN. fold (probed ai c) in HnN.
        rewrite neighbour_loop_window, neighbour_step_fold in HnN.
        cbn [Sentence.cells fst] in HnN.
        destruct Hadj as (Hne & Hwin).
        assert (Hknown : ¬ unknown_neighbour (probed ai c) c n).
        { intros Hu. apply HnN, elem_of_union. right.
          apply elem_of_list_to_set, list_elem_of_filter. split; [done|].
          by apply elem_of_window. }
        destruct Hcons as (_ & _ & Hs0 & Hm0 & Hmv0 & _).
        destruct (decide (n ∈ mines ai)) as [Hnm|Hnm].
        { exfalso. apply (Hnone n); [by split|done|by apply Hm0]. }
        destruct (decide (n ∈ safes ai)) as [Hns|Hns]; [set_solver|].
        destruct (decide (n ∈ moves_made ai)) as [Hnv|Hnv]; [set_solver|].
        exfalso. apply Hknown. unfold unknown_neighbour, probed, mark_safe, in_bounds.
        cbn [height width moves_made safes mines]. unfold in_bounds in Hb.
        split; [done|]. set_solver. }
    split; [done|]. intros (n & Hadj & Hb & Hnm) Hnone'.
    apply make_safe_move_None in Hnone'. apply Hnm, Hnone'. by apply Hopen.
  - intros Hallmines n HnN.
    assert (Hmine : ∀ x, x ∈ N → mine g x).
    { intros x Hx. eapply mines_in_full; [|exact Hx].
      unfold true_sentence in Htrue. fold N in Htrue. rewrite <- Htrue. done. }
    specialize (Hcov n HnN).
    apply elem_of_union in Hcov as [[Hcs|Hsf]%elem_of_union|Hmn]; [| |done].
    + apply Hfull; [|done]. rewrite Hstrue. unfold mines_in.
      assert (Hf : filter (mine g) (Sentence.cells s) = Sentence.cells s);
        [|by rewrite Hf].
      apply set_eq. intros x. rewrite elem_of_filter. split; [by intros [_ ?]|].
      intros Hx. split; [|done]. by apply Hmine, Hsub.
    + exfalso. by apply (Hs' n Hsf), Hmine.
Qed.

Lemma observation_settles_neighbours_witness :
  (Minesweeper.nearby_mines board12_empty (0, 0) = 0 →
     (∀ n, adjacent (0, 0) n → in_bounds (init 1 2) n → n ∈ safes ai12_first) ∧
     ((∃ n, adjacent (0, 0) n ∧ in_bounds (init 1 2) n ∧
            n ∉ moves_made ai12_first) →
      make_safe_move ai12_first ≠ None)) ∧
  (Sentence.count
     (new_sentence (init 1 2) (0, 0) (Minesweeper.nearby_mines board12_empty (0, 0)))
   = Z.of_nat (size (Sentence.cells
       (new_sentence (init 1 2) (0, 0)
          (Minesweeper.nearby_mines board12_empty (0, 0))))) →
     Sentence.cells
       (new_sentence (init 1 2) (0, 0) (Minesweeper.nearby_mines board12_empty (0, 0)))
       ⊆ mines ai12_first).
Proof.
  apply (observation_settles_neighbours board12_empty 10 (init 1 2) (0, 0)
           ai12_first).
  - apply (consistent_init board12_empty).
  - apply (bool_decide_unpack _). by vm_compute.
  - by vm_compute.
Defined.
